(** * nameblocker-extension: the content script [Content.js]

    A shallow embedding of the content script of the name blocker browser
    extension and the properties of its name-list loader, its matcher, its
    text-node censor, its mutation watcher and its toggle listener.

    JavaScript strings are sequences of UTF-16 code units; a code unit is a
    number of type [N].  The regular expression of the script,
    [new RegExp(`\\b(?:${pattern})\\b`, 'gi')], is represented the way
    ECMAScript specifies it: a matcher closure (string, start index) ->
    end index, together with the mutable [lastIndex] property. *)

From Stdlib Require Import NArith.
From stdpp Require Import base list strings gmap.

Open Scope nat_scope.
Set Warnings "-register-all".

(** ** JavaScript strings *)

Definition char := N.
Bind Scope N_scope with char.
Definition jsstring := list char.

(** Code units of an ASCII literal. *)
Definition js (s : string) : jsstring :=
  map (fun a => Ascii.N_of_ascii a) (String.list_ascii_of_string s).

Definition char_eqb (a b : char) : bool := N.eqb a b.

Definition in_range (lo hi c : char) : bool := (N.leb lo c) && (N.leb c hi).

(** [String.prototype.substring(a, b)] for [a <= b]. *)
Definition substring (s : jsstring) (a b : nat) : jsstring := take (b - a) (drop a s).

Fixpoint jsstring_eqb (a b : jsstring) : bool :=
  match a, b with
  | [], [] => true
  | x :: a', y :: b' => char_eqb x y && jsstring_eqb a' b'
  | _, _ => false
  end.

(** [prefix_of p s]: [s.startsWith(p)], giving the rest of [s]. *)
Fixpoint strip_prefix (p s : jsstring) : option jsstring :=
  match p with
  | [] => Some s
  | x :: p' =>
      match s with
      | y :: s' => if char_eqb x y then strip_prefix p' s' else None
      | [] => None
      end
  end.

(** ** Name Dictionary Loader ([initialize], the [then] handler of the fetch)

    [text.split(/\r?\n/).filter(Boolean).map(n => n.trim())] *)

Definition LF : char := 10%N.
Definition CR : char := 13%N.

(** [text.split(/\r?\n/)]: the separator is a line feed, or a carriage return
    followed by a line feed; [cur] is the piece being read, reversed. *)
Fixpoint split_lines_from (s : jsstring) (cur : jsstring) : list jsstring :=
  match s with
  | [] => [rev cur]
  | c :: rest =>
      if char_eqb c LF then rev cur :: split_lines_from rest []
      else if char_eqb c CR then
        match rest with
        | d :: rest' =>
            if char_eqb d LF then rev cur :: split_lines_from rest' []
            else split_lines_from rest (c :: cur)
        | [] => split_lines_from rest (c :: cur)
        end
      else split_lines_from rest (c :: cur)
  end.

Definition split_lines (text : jsstring) : list jsstring := split_lines_from text [].

(** [Boolean(s)] on a string: the empty string is the only falsy one. *)
Definition Boolean (s : jsstring) : bool :=
  match s with [] => false | _ :: _ => true end.

(** WhiteSpace and LineTerminator code points of ECMAScript, the ones
    [String.prototype.trim] strips. *)
Definition is_trim_space (c : char) : bool :=
  in_range 9 13 c || char_eqb c 32 || char_eqb c 160 || char_eqb c 5760
  || in_range 8192 8202 c || char_eqb c 8232 || char_eqb c 8233
  || char_eqb c 8239 || char_eqb c 8287 || char_eqb c 12288 || char_eqb c 65279.

Fixpoint trim_start (s : jsstring) : jsstring :=
  match s with
  | c :: s' => if is_trim_space c then trim_start s' else s
  | [] => []
  end.

Definition trim (s : jsstring) : jsstring := rev (trim_start (rev (trim_start s))).

(** The name list of the second variant (line 110). *)
Definition parse_name_list (text : jsstring) : list jsstring :=
  map trim (filter (fun s => Boolean s = true) (split_lines text)).

(** The name list of the first variant (line 6): no trimming at all. *)
Definition parse_name_list_v1 (text : jsstring) : list jsstring :=
  filter (fun s => Boolean s = true) (split_lines text).

(** [nameList.join("|")] *)
Definition VBAR : char := 124%N.

Fixpoint join (sep : jsstring) (l : list jsstring) : jsstring :=
  match l with
  | [] => []
  | [x] => x
  | x :: rest => x ++ sep ++ join sep rest
  end.

(** ** Outcomes

    A run of the model either finishes, or stops because a loop ran out of
    the fuel it was given, or reaches a construct of the host (regular
    expression syntax, HTML syntax) outside the fragment modelled here. *)

Inductive outcome (A : Type) : Type :=
  | Done (a : A)
  | OutOfFuel
  | OutsideModel.
Arguments Done {A} a.
Arguments OutOfFuel {A}.
Arguments OutsideModel {A}.

Definition obind {A B} (x : outcome A) (k : A -> outcome B) : outcome B :=
  match x with
  | Done a => k a
  | OutOfFuel => OutOfFuel
  | OutsideModel => OutsideModel
  end.

Notation "'let*' x := c 'in' k" := (obind c (fun x => k))
  (at level 10, x pattern, c at level 100, k at level 200).

(** ** Match Engine

    A regular expression object: its matcher closure (ECMAScript's
    [[RegExpMatcher]]: input and start index to the end index of the match
    found at that very index, if any) and its [lastIndex].  Both flags of the
    script, [g] and [i], are fixed. *)

Record RegExp := mkRegExp {
  RegExpMatcher : jsstring -> nat -> option nat;
  lastIndex : nat
}.

Definition set_lastIndex (R : RegExp) (i : nat) : RegExp :=
  {| RegExpMatcher := RegExpMatcher R; lastIndex := i |}.

(** A matcher's match ends where it starts or later. *)
Definition forward (m : jsstring -> nat -> option nat) : Prop :=
  forall str i e, m str i = Some e -> i <= e.

(** RegExpBuiltinExec, the scan: try index [i], then [i+1], ...; [n] indices
    are left to try. *)
Fixpoint exec_scan (m : jsstring -> nat -> option nat) (str : jsstring) (n i : nat)
  : option (nat * nat) :=
  match n with
  | 0 => None
  | S n' =>
      match m str i with
      | Some e => Some (i, e)
      | None => exec_scan m str n' (S i)
      end
  end.

(** RegExpBuiltinExec for a global expression: start at [lastIndex]; on
    failure [lastIndex] becomes 0, on success the end of the match. *)
Definition RegExpBuiltinExec (R : RegExp) (str : jsstring) : option (nat * nat) * RegExp :=
  if length str <? lastIndex R then (None, set_lastIndex R 0)
  else
    match exec_scan (RegExpMatcher R) str (length str + 1 - lastIndex R) (lastIndex R) with
    | Some (i, e) => (Some (i, e), set_lastIndex R e)
    | None => (None, set_lastIndex R 0)
    end.

(** [R.test(str)] *)
Definition RegExp_test (R : RegExp) (str : jsstring) : bool * RegExp :=
  match RegExpBuiltinExec R str with
  | (Some _, R') => (true, R')
  | (None, R') => (false, R')
  end.

(** The loop of [RegExp.prototype[Symbol.replace]] for a global expression:
    exec until it fails; after an empty match [lastIndex] is advanced by one. *)
Fixpoint collect_matches (fuel : nat) (R : RegExp) (str : jsstring)
  : outcome (list (nat * nat) * RegExp) :=
  match fuel with
  | 0 => OutOfFuel
  | S fuel' =>
      match RegExpBuiltinExec R str with
      | (None, R') => Done ([], R')
      | (Some (i, e), R') =>
          let R'' := if e =? i then set_lastIndex R' (lastIndex R' + 1) else R' in
          let* (ms, Rf) := collect_matches fuel' R'' str in
          Done ((i, e) :: ms, Rf)
      end
  end.

(** The result string: the text between matches, and the replacement of each
    match by the replacer function [f]. *)
Fixpoint build_result (str : jsstring) (f : jsstring -> jsstring)
    (ms : list (nat * nat)) (nextSourcePosition : nat) : jsstring :=
  match ms with
  | [] => drop nextSourcePosition str
  | (position, e) :: ms' =>
      if nextSourcePosition <=? position then
        substring str nextSourcePosition position ++ f (substring str position e)
          ++ build_result str f ms' e
      else build_result str f ms' nextSourcePosition
  end.

(** [str.replace(R, f)] for a global [R] and a replacer function [f]. *)
Definition String_replace (str : jsstring) (R : RegExp) (f : jsstring -> jsstring)
  : outcome (jsstring * RegExp) :=
  let* (ms, R') := collect_matches (length str + 2) (set_lastIndex R 0) str in
  Done (build_result str f ms 0, R').

(** *** The expression of the script: [\b(?:n1|n2|...)\b] with flags [gi] *)

(** SyntaxCharacter of the pattern grammar: ^ $ \ . * + ? ( ) [ ] { } | *)
Definition is_syntax_char (c : char) : bool :=
  char_eqb c 94 || char_eqb c 36 || char_eqb c 92 || char_eqb c 46
  || char_eqb c 42 || char_eqb c 43 || char_eqb c 63 || char_eqb c 40
  || char_eqb c 41 || char_eqb c 91 || char_eqb c 93 || char_eqb c 123
  || char_eqb c 125 || char_eqb c 124.

Definition RPAREN : char := 41%N.

(** Parser of the fragment [lit|lit|...)\b] of the pattern grammar, where a
    [lit] is a possibly empty run of characters that are not syntax
    characters; any other pattern is outside the fragment. *)
Fixpoint parse_disjunction (s : jsstring) (cur : jsstring) : option (list jsstring) :=
  match s with
  | [] => None
  | c :: rest =>
      if char_eqb c RPAREN then
        if jsstring_eqb rest (js "\b") then Some [rev cur] else None
      else if char_eqb c VBAR then
        match parse_disjunction rest [] with
        | Some alts => Some (rev cur :: alts)
        | None => None
        end
      else if is_syntax_char c then None
      else parse_disjunction rest (c :: cur)
  end.

Definition parse_pattern (source : jsstring) : option (list jsstring) :=
  match strip_prefix (js "\b(?:") source with
  | Some rest => parse_disjunction rest []
  | None => None
  end.

(** WordCharacters without the [u] flag: [A-Za-z0-9_]. *)
Definition is_word_char (c : char) : bool :=
  in_range 97 122 c || in_range 65 90 c || in_range 48 57 c || char_eqb c 95.

(** IsWordChar at index [e], and at index [e - 1]. *)
Definition word_at (Input : jsstring) (e : nat) : bool :=
  match Input !! e with
  | Some c => is_word_char c
  | None => false
  end.

Definition word_before (Input : jsstring) (e : nat) : bool :=
  match e with
  | 0 => false
  | S e' => word_at Input e'
  end.

(** The assertion [\b]. *)
Definition word_boundary (Input : jsstring) (e : nat) : bool :=
  xorb (word_before Input e) (word_at Input e).

Section NameMatcher.

(** [String.prototype.toUpperCase] of the host on a single code unit of value
    128 or more: the code unit of the result, or [None] when the result is
    not a single code unit.  The Unicode table is the host's. *)
Variable toUpperCase : char -> option char.

(** Canonicalize, for the flag [i] without the flag [u]. *)
Definition Canonicalize (ch : char) : char :=
  if N.ltb ch 128 then
    if in_range 97 122 ch then N.sub ch 32 else ch
  else
    match toUpperCase ch with
    | Some cu => if N.ltb cu 128 then ch else cu
    | None => ch
    end.

Definition char_matches (p c : char) : bool :=
  char_eqb (Canonicalize p) (Canonicalize c).

(** The characters of the literal [pat] match the input from index [i] on. *)
Fixpoint match_literal (pat : jsstring) (Input : jsstring) (i : nat) : bool :=
  match pat with
  | [] => true
  | p :: pat' =>
      match Input !! i with
      | Some c => char_matches p c && match_literal pat' Input (S i)
      | None => false
      end
  end.

(** The disjunction followed by [\b]: alternatives are tried in order, and an
    alternative whose end is not at a word boundary is given up for the next. *)
Fixpoint match_alternatives (alts : list jsstring) (Input : jsstring) (i : nat)
  : option nat :=
  match alts with
  | [] => None
  | a :: rest =>
      if match_literal a Input i && word_boundary Input (i + length a)
      then Some (i + length a)
      else match_alternatives rest Input i
  end.

Definition name_matcher (alts : list jsstring) (Input : jsstring) (i : nat) : option nat :=
  if word_boundary Input i then match_alternatives alts Input i else None.

(** [new RegExp(`\\b(?:${pattern})\\b`, 'gi')], lines 117 to 119, for the
    lists whose source is in the fragment; [None] for any other list, of
    which this model says nothing (a host compiles the source or throws). *)
Definition compile (nameList : list jsstring) : option RegExp :=
  let pattern := join [VBAR] nameList in
  match parse_pattern (js "\b(?:" ++ pattern ++ js ")\b") with
  | Some alts => Some {| RegExpMatcher := name_matcher alts; lastIndex := 0 |}
  | None => None
  end.

End NameMatcher.

(** ** HTML fragment parsing ([tempDiv.innerHTML = replacementHTML])

    The fragment of the HTML parser that the censor exercises: character
    data, the character references [&amp;] [&lt;] [&gt;], an ampersand that
    starts no character reference, the start tag of the spoiler span and the
    end tag of a span.  Any other markup, a carriage return (which the
    parser normalises) and a NUL (which the parser drops) are outside the
    fragment. *)

Inductive node : Type :=
  | Text (nodeValue : jsstring)
  | Element (nodeName : string) (classList : list string) (childNodes : list node).

Definition SPOILER_CLASS : string := "gemini-spoiler-censor".

Inductive token : Type :=
  | TChar (c : char)
  | TStartSpoiler
  | TEndSpan.

Definition LT : char := 60%N.
Definition GT : char := 62%N.
Definition AMP : char := 38%N.
Definition HASH : char := 35%N.
Definition NUL : char := 0%N.

Definition QUOTE : char := 34%N.

(** The start tag that the replacer writes, with [SPOILER_CLASS] between
    double quotes. *)
Definition spoiler_start_tag : jsstring :=
  js "<span class=" ++ [QUOTE] ++ js SPOILER_CLASS ++ [QUOTE] ++ js ">".
Definition span_end_tag : jsstring := js "</span>".
Arguments spoiler_start_tag : simpl never.
Arguments span_end_tag : simpl never.

Definition starts_with (p s : jsstring) : bool :=
  match strip_prefix p s with Some _ => true | None => false end.

Definition is_ascii_alnum (c : char) : bool :=
  in_range 97 122 c || in_range 65 90 c || in_range 48 57 c.

(** The tokenizer; [skip] counts the code units still to pass over that
    belong to the tag or reference recognised last. *)
Fixpoint tokenize (s : jsstring) (skip : nat) : option (list token) :=
  match s with
  | [] => Some []
  | c :: rest =>
      match skip with
      | S k => tokenize rest k
      | 0 =>
          if char_eqb c LT then
            if starts_with spoiler_start_tag s then
              cons TStartSpoiler <$> tokenize rest (length spoiler_start_tag - 1)
            else if starts_with span_end_tag s then
              cons TEndSpan <$> tokenize rest (length span_end_tag - 1)
            else None
          else if char_eqb c AMP then
            if starts_with (js "&amp;") s then cons (TChar AMP) <$> tokenize rest 4
            else if starts_with (js "&lt;") s then cons (TChar LT) <$> tokenize rest 3
            else if starts_with (js "&gt;") s then cons (TChar GT) <$> tokenize rest 3
            else
              match rest with
              | d :: _ =>
                  if is_ascii_alnum d || char_eqb d HASH then None
                  else cons (TChar AMP) <$> tokenize rest 0
              | [] => cons (TChar AMP) <$> tokenize rest 0
              end
          else if char_eqb c CR || char_eqb c NUL then None
          else cons (TChar c) <$> tokenize rest 0
      end
  end.

(** Character data is appended to the text node that ends the children read
    so far ([cur], most recent first), or starts a new text node. *)
Definition append_char (c : char) (cur : list node) : list node :=
  match cur with
  | Text v :: cur' => Text (v ++ [c]) :: cur'
  | _ => Text [c] :: cur
  end.

(** Tree construction: [cur] holds the children of the open element, most
    recent first, and [stack] those of the elements around it. *)
Fixpoint build_tree (toks : list token) (cur : list node) (stack : list (list node))
  : option (list node) :=
  match toks with
  | [] => match stack with [] => Some (rev cur) | _ :: _ => None end
  | TChar c :: toks' => build_tree toks' (append_char c cur) stack
  | TStartSpoiler :: toks' => build_tree toks' [] (cur :: stack)
  | TEndSpan :: toks' =>
      match stack with
      | [] => None
      | outer :: stack' =>
          build_tree toks' (Element "SPAN" [SPOILER_CLASS] (rev cur) :: outer) stack'
      end
  end.

(** The child nodes of [tempDiv] after [tempDiv.innerHTML = html]. *)
Definition innerHTML (html : jsstring) : outcome (list node) :=
  match tokenize html 0 with
  | Some toks =>
      match build_tree toks [] [] with
      | Some kids => Done kids
      | None => OutsideModel
      end
  | None => OutsideModel
  end.

(** [node.textContent] *)
Fixpoint textContent (n : node) : jsstring :=
  match n with
  | Text v => v
  | Element _ _ kids => flat_map textContent kids
  end.

(** ** The document

    The subtree of [document.body]; a node is addressed by the path of child
    indices that leads to it from the body. *)

Definition path := list nat.

(** Apply [f] to the child list of the element at [p]. *)
Fixpoint update_children (n : node) (p : path) (f : list node -> list node) : node :=
  match p with
  | [] =>
      match n with
      | Element nm cls kids => Element nm cls (f kids)
      | Text v => Text v
      end
  | i :: p' =>
      match n with
      | Element nm cls kids =>
          Element nm cls (alter (fun k => update_children k p' f) i kids)
      | Text v => Text v
      end
  end.

(** [parent.insertBefore(newChild, refChild)], [refChild] being the child of
    index [i] of the element at [parent]. *)
Definition insertBefore (doc : node) (parent : path) (i : nat) (newChild : node) : node :=
  update_children doc parent (fun kids => take i kids ++ newChild :: drop i kids).

(** [parent.removeChild(child)], [child] being the child of index [i]. *)
Definition removeChild (doc : node) (parent : path) (i : nat) : node :=
  update_children doc parent (fun kids => delete i kids).

(** A text node as the tree walker meets it: where it is, its parent's name
    and classes, and its value. *)
Record text_entry := mkEntry {
  parentPath : path;
  childIndex : nat;
  parentName : string;
  parentClasses : list string;
  value : jsstring
}.

(** The text nodes below the element [n] at path [here], in document order. *)
Fixpoint text_entries_below (n : node) (here : path) : list text_entry :=
  match n with
  | Text _ => []
  | Element nm cls kids =>
      (fix go (ks : list node) (i : nat) : list text_entry :=
         match ks with
         | [] => []
         | Text v :: ks' => mkEntry here i nm cls v :: go ks' (S i)
         | k :: ks' => text_entries_below k (here ++ [i]) ++ go ks' (S i)
         end) kids 0
  end.

Definition entry_path (e : text_entry) : path := parentPath e ++ [childIndex e].

(** Document order on paths: an ancestor comes before its descendants, an
    earlier sibling's subtree before a later sibling's. *)
Fixpoint path_before (p q : path) : bool :=
  match p, q with
  | [], [] => false
  | [], _ :: _ => true
  | _ :: _, [] => false
  | a :: p', b :: q' =>
      if a <? b then true else if a =? b then path_before p' q' else false
  end.

(** What [walker.currentNode] refers to: a node of the document, or a node
    that has been removed from it (with the subtree it took along). *)
Inductive node_ref : Type :=
  | Attached (p : path)
  | Detached (n : node).

(** The text nodes that follow the current node of a tree walker rooted at
    the body, in document order.  A removed node has no parent and no
    sibling: what follows it is inside its own subtree. *)
Definition following_text (doc : node) (current : node_ref) : list text_entry :=
  match current with
  | Attached p => filter (fun e => path_before p (entry_path e) = true) (text_entries_below doc [])
  | Detached n => text_entries_below n []
  end.

Fixpoint ascii_lower_string (s : string) : string :=
  match s with
  | EmptyString => EmptyString
  | String a s' =>
      let n := Ascii.N_of_ascii a in
      String (if in_range 65 90 n then Ascii.ascii_of_N (N.add n 32) else a)
             (ascii_lower_string s')
  end.

(** [/\S/.test(s)] *)
Definition has_non_space (s : jsstring) : bool :=
  existsb (fun c => negb (is_trim_space c)) s.

(** The filter of the tree walker (lines 146 to 164), with the expression it
    tests and resets. *)
Definition acceptNode (R : RegExp) (e : text_entry) : bool * RegExp :=
  let parentNodeName := ascii_lower_string (parentName e) in
  if String.eqb parentNodeName "script"
     || String.eqb parentNodeName "style"
     || String.eqb parentNodeName "textarea"
     || String.eqb parentNodeName "input"
     || existsb (String.eqb SPOILER_CLASS) (parentClasses e)
     || negb (has_non_space (value e))
  then (false, R)
  else
    match RegExp_test R (value e) with
    | (false, R') => (false, R')
    | (true, R') => (true, set_lastIndex R' 0)
    end.

(** The filtering steps of [nextNode] over the candidates in order. *)
Fixpoint first_accepted (R : RegExp) (es : list text_entry) : option text_entry * RegExp :=
  match es with
  | [] => (None, R)
  | e :: es' =>
      match acceptNode R e with
      | (true, R') => (Some e, R')
      | (false, R') => first_accepted R' es'
      end
  end.

(** [walker.nextNode()] for the walker of [censorNames]: root the body,
    [SHOW_TEXT], the filter above. *)
Definition nextNode (doc : node) (current : node_ref) (R : RegExp)
  : option text_entry * RegExp :=
  first_accepted R (following_text doc current).

(** The replacer of line 176. *)
Definition wrap_spoiler (m : jsstring) : jsstring :=
  spoiler_start_tag ++ m ++ span_end_tag.
Arguments wrap_spoiler : simpl never.

(** Lines 184 to 186: every child of [tempDiv] is moved in front of the text
    node, whose index grows by one each time. *)
Fixpoint insert_all (doc : node) (parent : path) (i : nat) (kids : list node) : node * nat :=
  match kids with
  | [] => (doc, i)
  | k :: kids' => insert_all (insertBefore doc parent i k) parent (S i) kids'
  end.

(** The page as [censorNames] sees it: the body, the global [nameRegex], and
    the number of child-list mutations made to the document so far. *)
Record Page := mkPage {
  body : node;
  nameRegex : option RegExp;
  mutations : nat
}.

(** The body of the [while] loop of [censorNames], lines 171 to 187. *)
Definition censor_node (doc : node) (R : RegExp) (e : text_entry)
  : outcome (node * RegExp * nat) :=
  let originalText := value e in
  let* (replacementHTML, R') := String_replace originalText R wrap_spoiler in
  let* kids := innerHTML replacementHTML in
  let (doc', i) := insert_all doc (parentPath e) (childIndex e) kids in
  Done (removeChild doc' (parentPath e) i, R', length kids + 1).

(** The loop [while (node = walker.nextNode())]: the text node just replaced
    is the walker's current node, and it has been removed from the document. *)
Fixpoint censor_loop (fuel : nat) (current : node_ref) (doc : node) (R : RegExp) (muts : nat)
  : outcome (node * RegExp * nat) :=
  match fuel with
  | 0 => OutOfFuel
  | S fuel' =>
      match nextNode doc current R with
      | (None, R') => Done (doc, R', muts)
      | (Some e, R') =>
          let* (doc', R'', n) := censor_node doc R' e in
          censor_loop fuel' (Detached (Text (value e))) doc' R'' (muts + n)
      end
  end.

(** [censorNames()], lines 136 to 189, under the value of the global
    [isEnabled]. *)
Definition censorNames (isEnabled : bool) (pg : Page) : outcome Page :=
  if negb isEnabled then Done pg
  else
    match nameRegex pg with
    | None => Done pg
    | Some R =>
        let fuel := length (text_entries_below (body pg) []) + 1 in
        let* (doc, R', muts) := censor_loop fuel (Attached []) (body pg) R (mutations pg) in
        Done {| body := doc; nameRegex := Some R'; mutations := muts |}
    end.

(** ** The script: globals, listeners, timers

    The state of the content script and of the part of the host it uses.
    The document is known as far as the model of [censorNames] follows it:
    [page] is an outcome.  Everything else is always known. *)

Inductive effect : Type :=
  | CensorPass       (* a call of [censorNames] *)
  | ReloadRequest    (* [location.reload()] *)
  | ConsoleWarn
  | ConsoleError.

Record Script := mkScript {
  isEnabled : bool;                (* the global [isEnabled], as a truth value *)
  page : outcome Page;
  observers : nat;                 (* mutation observers observing the body *)
  styleElements : nat;             (* elements of id [gemini-censor-styles] *)
  clickListeners : nat;            (* capture-phase click listeners added *)
  timer : option nat;              (* the variable [timer] of the debounce closure *)
  timeouts : gmap nat nat;         (* pending timeouts of the host: id to due time *)
  nextTimeoutId : nat;
  clock : nat;                     (* milliseconds *)
  trace : list (nat * effect)      (* what happened and when, most recent first *)
}.

Definition set_isEnabled (b : bool) (s : Script) : Script :=
  mkScript b (page s) (observers s) (styleElements s) (clickListeners s)
    (timer s) (timeouts s) (nextTimeoutId s) (clock s) (trace s).

Definition set_page (pg : outcome Page) (s : Script) : Script :=
  mkScript (isEnabled s) pg (observers s) (styleElements s) (clickListeners s)
    (timer s) (timeouts s) (nextTimeoutId s) (clock s) (trace s).

Definition set_observers (n : nat) (s : Script) : Script :=
  mkScript (isEnabled s) (page s) n (styleElements s) (clickListeners s)
    (timer s) (timeouts s) (nextTimeoutId s) (clock s) (trace s).

Definition set_styleElements (n : nat) (s : Script) : Script :=
  mkScript (isEnabled s) (page s) (observers s) n (clickListeners s)
    (timer s) (timeouts s) (nextTimeoutId s) (clock s) (trace s).

Definition set_clickListeners (n : nat) (s : Script) : Script :=
  mkScript (isEnabled s) (page s) (observers s) (styleElements s) n
    (timer s) (timeouts s) (nextTimeoutId s) (clock s) (trace s).

Definition set_timers (tm : option nat) (tos : gmap nat nat) (next : nat) (s : Script) : Script :=
  mkScript (isEnabled s) (page s) (observers s) (styleElements s) (clickListeners s)
    tm tos next (clock s) (trace s).

Definition set_clock (t : nat) (s : Script) : Script :=
  mkScript (isEnabled s) (page s) (observers s) (styleElements s) (clickListeners s)
    (timer s) (timeouts s) (nextTimeoutId s) t (trace s).

Definition log (e : effect) (s : Script) : Script :=
  mkScript (isEnabled s) (page s) (observers s) (styleElements s) (clickListeners s)
    (timer s) (timeouts s) (nextTimeoutId s) (clock s) ((clock s, e) :: trace s).

(** A call of [censorNames()]. *)
Definition call_censorNames (s : Script) : Script :=
  let s' := log CensorPass s in
  set_page (let* pg := page s' in censorNames (isEnabled s') pg) s'.

(** [clearTimeout(id)]: an id that is not pending, or [undefined], is ignored. *)
Definition clearTimeout (id : option nat) (tos : gmap nat nat) : gmap nat nat :=
  match id with
  | Some i => delete i tos
  | None => tos
  end.

(** The closure that [debounce(censorNames, timeout)] returns (lines 84 to
    87): clear the timeout held in [timer], set a new one and hold it. *)
Definition debounced (timeout : nat) (s : Script) : Script :=
  let tos := clearTimeout (timer s) (timeouts s) in
  let id := nextTimeoutId s in
  set_timers (Some id) (<[id := clock s + timeout]> tos) (S id) s.

(** The cooldown of line 194. *)
Definition COOLDOWN : nat := 300.

Definition debouncedCensorNames (s : Script) : Script := debounced COOLDOWN s.

(** The callback of the mutation observer, lines 201 to 204. *)
Definition observer_callback (s : Script) : Script :=
  if negb (isEnabled s) then s else debouncedCensorNames s.

(** [observeDOMChanges()], lines 199 to 213: a new observer observes the
    body; the global handle is overwritten, the observer it held stays
    connected. *)
Definition observeDOMChanges (s : Script) : Script :=
  set_observers (observers s + 1) s.

(** [injectSpoilerStyles()], lines 232 to 267. *)
Definition injectSpoilerStyles (s : Script) : Script :=
  if 0 <? styleElements s then s else set_styleElements (styleElements s + 1) s.

(** [addRevealClickListener()], lines 269 to 278: the listener is a new
    function at every call. *)
Definition addRevealClickListener (s : Script) : Script :=
  set_clickListeners (clickListeners s + 1) s.

(** The synchronous part of [initialize()], lines 96 to 102; the fetch is
    then under way. *)
Definition initialize (s : Script) : Script :=
  addRevealClickListener (injectSpoilerStyles s).

(** How the fetch of the name list ends. *)
Inductive fetch_result : Type :=
  | NetworkFailure
  | Response (ok : bool) (text : jsstring).

(** A change of the key [enabled] in the storage; [None] is [undefined]. *)
Record StorageChange := mkChange {
  oldValue : option bool;
  newValue : option bool
}.

Definition truthy (v : option bool) : bool :=
  match v with
  | Some true => true
  | _ => false
  end.

Section Script.

(** The constructor [new RegExp(source, 'gi')] of the host; [None] when it
    throws a SyntaxError. *)
Variable RegExp_new : jsstring -> option RegExp.

(** The handlers of the fetch promise, lines 103 to 127. *)
Definition fetch_settled (r : fetch_result) (s : Script) : Script :=
  match r with
  | NetworkFailure => log ConsoleError s
  | Response false _ => log ConsoleError s
  | Response true text =>
      let nameList := parse_name_list text in
      if length nameList =? 0 then log ConsoleWarn s
      else
        let pattern := join [VBAR] nameList in
        match RegExp_new (js "\b(?:" ++ pattern ++ js ")\b") with
        | None => log ConsoleError s
        | Some R =>
            let s1 :=
              set_page (let* pg := page s in
                        Done {| body := body pg; nameRegex := Some R;
                                mutations := mutations pg |}) s in
            observeDOMChanges (call_censorNames s1)
        end
  end.

(** The listener of [chrome.storage.onChanged], lines 219 to 229;
    [enabled] is [changes.enabled]. *)
Definition storage_changed (enabled : option StorageChange) (s : Script) : Script :=
  match enabled with
  | None => s
  | Some change =>
      let s1 := set_isEnabled (truthy (newValue change)) s in
      if isEnabled s1 then call_censorNames s1
      else log ReloadRequest s1
  end.

(** The callback of a timeout set by the debounced function, line 86. *)
Definition timeout_fires (id : nat) (s : Script) : Script :=
  call_censorNames
    (set_timers (timer s) (delete id (timeouts s)) (nextTimeoutId s) s).

(** What the host delivers to the script, and when. *)
Inductive event : Type :=
  | Mutations (t : nat)                 (* a batch of mutations of the body *)
  | TimeoutFires (t : nat) (id : nat)
  | StorageChanged (t : nat) (enabled : option StorageChange)
  | FetchSettled (t : nat) (r : fetch_result).

Definition event_time (e : event) : nat :=
  match e with
  | Mutations t | TimeoutFires t _ | StorageChanged t _ | FetchSettled t _ => t
  end.


(** One turn of the event loop.  A batch of mutations runs the callback of
    every observer of the body. *)
Definition deliver (e : event) (s : Script) : Script :=
  let s := set_clock (event_time e) s in
  match e with
  | Mutations _ => Nat.iter (observers s) observer_callback s
  | TimeoutFires _ id => timeout_fires id s
  | StorageChanged _ enabled => storage_changed enabled s
  | FetchSettled _ r => fetch_settled r s
  end.

Fixpoint run (es : list event) (s : Script) : Script :=
  match es with
  | [] => s
  | e :: es' => run es' (deliver e s)
  end.


End Script.

(** The script when it starts: line 70 and 71, nothing registered yet. *)
Definition start (doc : node) : Script :=
  {| isEnabled := true;
     page := Done {| body := doc; nameRegex := None; mutations := 0 |};
     observers := 0; styleElements := 0; clickListeners := 0;
     timer := None; timeouts := ∅; nextTimeoutId := 1;
     clock := 0; trace := [] |}.

(** The times of the censor passes in a trace, most recent first. *)
Definition pass_times (tr : list (nat * effect)) : list nat :=
  flat_map (fun '(t, e) => match e with CensorPass => [t] | _ => [] end) tr.

Definition reload_times (tr : list (nat * effect)) : list nat :=
  flat_map (fun '(t, e) => match e with ReloadRequest => [t] | _ => [] end) tr.


Definition only_mutations_and_timeouts (es : list event) : Prop :=
  Forall (fun e => match e with Mutations _ | TimeoutFires _ _ => True | _ => False end) es.


(** ** What the specification says of the matcher

    The specification describes the matcher as "any dictionary entry,
    matched as a whole word, case-insensitive, anchored by
    non-word-character boundaries".  The definitions below follow these
    words: an occurrence of the entry up to case, with no word character
    right before it and none right after it. *)

Section SpecMatcher.

Variable toUpperCase : char -> option char.

Definition occurs_at (name Input : jsstring) (i : nat) : bool :=
  match_literal toUpperCase name Input i.

Definition whole_word_at (name Input : jsstring) (i : nat) : bool :=
  occurs_at name Input i
  && negb (word_before Input i)
  && negb (word_at Input (i + length name)).

Definition spec_matches (D : list jsstring) (Input : jsstring) : Prop :=
  exists name i, In name D /\ whole_word_at name Input i = true.

End SpecMatcher.

(** An entry without syntax characters of the pattern grammar. *)
Definition plain_entry (name : jsstring) : Prop :=
  Forall (fun c => is_syntax_char c = false) name.

(** An entry that begins and ends with a word character. *)
Definition word_edged (name : jsstring) : Prop :=
  match name with
  | [] => False
  | c :: rest => is_word_char c = true /\ is_word_char (List.last rest c) = true
  end.

(** ** A table to run examples with

    The uppercase mapping of Unicode on the Latin-1 Supplement (U+0080 to
    U+00FF).  It is not the table of a host beyond U+00FF: a host also maps
    the Greek, Cyrillic and other letters above, which this table leaves as
    they are.  The instances that use it hold code units up to U+00FF only,
    in their entries and in their texts; the theorems are stated for every
    table. *)
Definition toUpperCase_latin1 (c : char) : option char :=
  if char_eqb c 223 then None                       (* sharp s gives "SS" *)
  else if char_eqb c 181 then Some 924%N            (* micro sign *)
  else if char_eqb c 255 then Some 376%N            (* y with diaeresis *)
  else if in_range 224 254 c && negb (char_eqb c 247) then Some (N.sub c 32)
  else Some c.

Definition compile_latin1 : list jsstring -> option RegExp := compile toUpperCase_latin1.

(** A constructor to run examples with.  On a source of the fragment (a
    disjunction of literals between two [\b]) it gives the expression that
    a host builds, under the table above.  On any other source it gives
    [None], which stands for no behaviour of a host: a host compiles many
    of these sources (a list with the entry "A.B", say) and throws on
    others.  The instances that use this constructor hand it sources of the
    fragment only; the theorems on the script are stated for every
    constructor. *)
Definition RegExp_new_latin1 (source : jsstring) : option RegExp :=
  match parse_pattern source with
  | Some alts => Some {| RegExpMatcher := name_matcher toUpperCase_latin1 alts; lastIndex := 0 |}
  | None => None
  end.

(** The global [nameRegex] is still [null]. *)
Definition matcher_unset (s : Script) : Prop :=
  exists pg, page s = Done pg /\ nameRegex pg = None.

(** Matches in the order of the text: each starts where the one before
    ended or later, and ends where it starts or later. *)
Fixpoint sorted_from (next : nat) (ms : list (nat * nat)) : Prop :=
  match ms with
  | [] => True
  | (i, e) :: ms' => next <= i /\ i <= e /\ sorted_from e ms'
  end.

(** Between the matches that replace collects, and after the last one, the
    matcher matches at no index ([next] is where the search resumes). *)
Fixpoint gaps_free (m : jsstring -> nat -> option nat) (str : jsstring)
    (next : nat) (ms : list (nat * nat)) : Prop :=
  match ms with
  | [] => forall j, next <= j <= length str -> m str j = None
  | (i, e) :: ms' =>
      (forall j, next <= j < i -> m str j = None)
      /\ gaps_free m str (if e =? i then e + 1 else e) ms'
  end.

(** The text contains a match of the expression, at some index. *)
Definition contains_match (R : RegExp) (str : jsstring) : bool :=
  match exec_scan (RegExpMatcher R) str (length str + 1) 0 with
  | Some _ => true
  | None => false
  end.

(** The debounce closure holds the one pending timeout, due at [due]. *)
Definition armed (s : Script) (due : nat) : Prop :=
  exists id, timer s = Some id /\ timeouts s = {[id := due]}.

Definition idle_or_armed (s : Script) : Prop :=
  timeouts s = ∅ \/ exists due, armed s due.

(** Text that the HTML parser reads as it stands: no [<], no [&], no
    carriage return, no NUL. *)
Definition is_html_plain (c : char) : bool :=
  negb (char_eqb c LT || char_eqb c AMP || char_eqb c CR || char_eqb c NUL).

Definition html_plain (str : jsstring) : Prop :=
  Forall (fun c => is_html_plain c = true) str.

(** The character data among tokens. *)
Definition chars_of (toks : list token) : jsstring :=
  flat_map (fun t => match t with TChar c => [c] | _ => [] end) toks.

(** Character data appended one code unit after the other. *)
Fixpoint append_chars (xs : jsstring) (cur : list node) : list node :=
  match xs with
  | [] => cur
  | c :: xs' => append_chars xs' (append_char c cur)
  end.

(** The text node for a run of character data; an empty run makes none. *)
Definition text_node (xs : jsstring) : list node :=
  match xs with
  | [] => []
  | _ :: _ => [Text xs]
  end.

(** The nodes that the parser builds from the markup written for the
    matches [ms] of a text, from [next] on. *)
Fixpoint nodes_of (str : jsstring) (ms : list (nat * nat)) (next : nat) : list node :=
  match ms with
  | [] => text_node (drop next str)
  | (i, e) :: ms' =>
      text_node (substring str next i)
        ++ Element "SPAN" [SPOILER_CLASS] (text_node (substring str i e))
        :: nodes_of str ms' e
  end.

Definition no_text_head (cur : list node) : Prop :=
  match cur with
  | Text _ :: _ => False
  | _ => True
  end.

(** The tokens of the markup that the replacer writes for the matches [ms]
    of a text, from [next] on. *)
Fixpoint tokens_of (str : jsstring) (ms : list (nat * nat)) (next : nat) : list token :=
  match ms with
  | [] => map TChar (drop next str)
  | (i, e) :: ms' =>
      if next <=? i then
        map TChar (substring str next i) ++ TStartSpoiler
          :: map TChar (substring str i e) ++ TEndSpan :: tokens_of str ms' e
      else tokens_of str ms' next
  end.

(** A string with no white space at either end. *)
Definition starts_without_space (s : jsstring) : Prop :=
  match s with
  | [] => True
  | c :: _ => is_trim_space c = false
  end.

Definition trimmed (s : jsstring) : Prop :=
  starts_without_space s /\ starts_without_space (rev s).

(** A node that no later pass touches: a text without a match, or a
    spoiler span with text nodes only. *)
Definition is_text (n : node) : Prop :=
  match n with
  | Text _ => True
  | Element _ _ _ => False
  end.

Definition inert (R : RegExp) (n : node) : Prop :=
  match n with
  | Text v => contains_match R v = false
  | Element _ cls kids => In SPOILER_CLASS cls /\ Forall is_text kids
  end.

(** ** Nodes by path *)

(** The node that the path [p] leads to from [n]. *)
Fixpoint get_node (n : node) (p : path) : option node :=
  match p with
  | [] => Some n
  | i :: p' =>
      match n with
      | Element _ _ kids =>
          match kids !! i with
          | Some k => get_node k p'
          | None => None
          end
      | Text _ => None
      end
  end.

(** Apply [f] to the node at [p]. *)
Fixpoint update_node (n : node) (p : path) (f : node -> node) {struct p} : node :=
  match p with
  | [] => f n
  | i :: p' =>
      match n with
      | Element nm cls kids => Element nm cls (alter (fun k => update_node k p' f) i kids)
      | Text v => Text v
      end
  end.

(** The text nodes below the children [ks] of an element, the first of
    which has index [i]: the inner loop of [text_entries_below]. *)
Fixpoint entries_of_children (nm : string) (cls : list string) (here : path)
    (ks : list node) (i : nat) : list text_entry :=
  match ks with
  | [] => []
  | Text v :: ks' => mkEntry here i nm cls v :: entries_of_children nm cls here ks' (S i)
  | k :: ks' => text_entries_below k (here ++ [i]) ++ entries_of_children nm cls here ks' (S i)
  end.

(** The children [l] of the parent after the children [ks] have been
    inserted one after the other, the first of them at index [i]. *)
Fixpoint insert_children (i : nat) (ks : list node) (l : list node) : list node :=
  match ks with
  | [] => l
  | k :: ks' => insert_children (S i) ks' (take i l ++ k :: drop i l)
  end.

(** ** Revealing a spoiler (the click listener, lines 270 to 277) *)

Definition REVEALED : string := "revealed".

Definition has_class (c : string) (n : node) : bool :=
  match n with
  | Element _ cls _ => existsb (String.eqb c) cls
  | Text _ => false
  end.

(** [event.target.closest(`.${SPOILER_CLASS}`)] within the body: the target
    or the nearest element around it that carries the class.  [rp] is the
    path of the target, last index first. *)
Fixpoint closest_spoiler (doc : node) (rp : list nat) : option path :=
  match get_node doc (rev rp) with
  | Some n =>
      if has_class SPOILER_CLASS n then Some (rev rp)
      else match rp with
           | [] => None
           | _ :: rp' => closest_spoiler doc rp'
           end
  | None =>
      match rp with
      | [] => None
      | _ :: rp' => closest_spoiler doc rp'
      end
  end.

(** [spoilerElement.classList.add('revealed')] *)
Definition add_revealed (n : node) : node :=
  match n with
  | Element nm cls kids => Element nm (cls ++ [REVEALED]) kids
  | Text v => Text v
  end.

(** The listener on a click whose target is the element at [target]: the
    document after it, and whether propagation was stopped. *)
Definition reveal_click (doc : node) (target : path) : node * bool :=
  match closest_spoiler doc (rev target) with
  | Some p =>
      match get_node doc p with
      | Some spoilerElement =>
          if negb (has_class REVEALED spoilerElement)
          then (update_node doc p add_revealed, true)
          else (doc, false)
      | None => (doc, false)
      end
  | None => (doc, false)
  end.

(** ** The popup ([popup.js]) and the stored flag *)

(** The click listener of the toggle button: the state it stores and the
    message it alerts, from the value stored under [enabled]. *)
Definition popup_toggle (enabled : option bool) : bool * jsstring :=
  let newState := negb (truthy enabled) in
  (newState, js "Name Blocker " ++ (if newState then js "enabled" else js "disabled")).

(** The browser as far as the extension goes: the value stored under
    [enabled] ([None]: nothing stored), the content script of the tab, and
    the alerts shown. *)
Record Browser := mkBrowser {
  stored : option bool;
  tab : Script;
  alerts : list jsstring
}.

(** A click on the toggle button: the new state is stored, the storage
    reports the change to the content script, the popup alerts. *)
Definition click_toggle (b : Browser) : Browser :=
  let (newState, message) := popup_toggle (stored b) in
  {| stored := Some newState;
     tab := storage_changed (Some {| oldValue := stored b; newValue := Some newState |}) (tab b);
     alerts := message :: alerts b |}.

(** The tab loads a page: the content script starts anew, line 281.
    Nothing in the script reads the stored value. *)
Definition load_page (doc : node) (b : Browser) : Browser :=
  {| stored := stored b; tab := initialize (start doc); alerts := alerts b |}.



Section Tab.

Variable RegExp_new : jsstring -> option RegExp.



End Tab.

(** ** The first variant of the censor (lines 38 to 67), on one text *)

(** [text.split(/(\W+)/)]: the runs of word characters and, between them,
    the runs of other characters; the first and the last piece are runs of
    word characters, possibly empty.  [cur] is the piece being read,
    reversed, and [in_separator] tells which kind it is. *)
Fixpoint split_nonword_from (s : jsstring) (cur : jsstring) (in_separator : bool)
  : list jsstring :=
  match s with
  | [] => if in_separator then [rev cur; []] else [rev cur]
  | c :: rest =>
      if Bool.eqb (negb (is_word_char c)) in_separator
      then split_nonword_from rest (c :: cur) in_separator
      else rev cur :: split_nonword_from rest [c] (negb in_separator)
  end.

Definition split_nonword (text : jsstring) : list jsstring :=
  split_nonword_from text [] false.

(** [nameList.includes(word)] *)
Definition includes (nameList : list jsstring) (word : jsstring) : bool :=
  existsb (jsstring_eqb word) nameList.

(** The replacement of line 55. *)
Definition wrap_black (word : jsstring) : jsstring :=
  js "<span style=" ++ [QUOTE] ++ js "background:black;color:black" ++ [QUOTE] ++ js ">"
    ++ word ++ js "</span>".

(** Lines 47 to 62 for one text node: [None] when nothing has changed and
    the node is left alone, else the markup assigned to [span.innerHTML]. *)
Definition censor_text_v1 (nameList : list jsstring) (text : jsstring) : option jsstring :=
  let words := split_nonword text in
  let changed := existsb (includes nameList) words in
  let newWords := map (fun word => if includes nameList word then wrap_black word else word) words in
  if changed then Some (concat newWords) else None.

(** An entry that holds both a word character and another character. *)
Definition mixed (name : jsstring) : bool :=
  existsb is_word_char name && existsb (fun c => negb (is_word_char c)) name.

(** A run of word characters, and a run of other characters. *)
Definition word_run (s : jsstring) : Prop := Forall (fun c => is_word_char c = true) s.
Definition separator_run (s : jsstring) : Prop :=
  s <> [] /\ Forall (fun c => is_word_char c = false) s.

(** Pieces that alternate: a run of word characters, then a separator and
    a run of word characters, any number of times. *)
Fixpoint alternating (pieces : list jsstring) : Prop :=
  match pieces with
  | [w] => word_run w
  | w :: sep :: rest => word_run w /\ separator_run sep /\ alternating rest
  | [] => False
  end.

(** The four conditions of the filter as one test, for an expression whose
    [lastIndex] is 0. *)
Definition eligible (R : RegExp) (e : text_entry) : bool :=
  let parentNodeName := ascii_lower_string (parentName e) in
  negb (String.eqb parentNodeName "script" || String.eqb parentNodeName "style"
        || String.eqb parentNodeName "textarea" || String.eqb parentNodeName "input")
  && negb (existsb (String.eqb SPOILER_CLASS) (parentClasses e))
  && has_non_space (value e)
  && contains_match R (value e).

Definition all_space (s : jsstring) : Prop := Forall (fun c => is_trim_space c = true) s.

(** Two lookups that agree on whether there is a node and on whether it
    carries the spoiler class. *)
Definition same_spoiler (a b : option node) : Prop :=
  match a, b with
  | Some n', Some n => has_class SPOILER_CLASS n' = has_class SPOILER_CLASS n
  | None, None => True
  | _, _ => False
  end.

(** The text nodes that one child contributes. *)
Definition child_entries (nm : string) (cls : list string) (here : path)
    (k : node) (i : nat) : list text_entry :=
  match k with
  | Text v => [mkEntry here i nm cls v]
  | Element _ _ _ => text_entries_below k (here ++ [i])
  end.

(** Two entries that the filter cannot tell apart. *)
Definition same_for_filter (e' e : text_entry) : Prop :=
  parentPath e' = parentPath e /\ childIndex e' = childIndex e
  /\ parentName e' = parentName e /\ value e' = value e
  /\ existsb (String.eqb SPOILER_CLASS) (parentClasses e')
     = existsb (String.eqb SPOILER_CLASS) (parentClasses e).

(** ** Passes one after the other *)

(** [k] calls of [censorNames()] in a row, the script enabled. *)
Fixpoint passes (k : nat) (pg : Page) : outcome Page :=
  match k with
  | 0 => Done pg
  | S k' => let* pg' := censorNames true pg in passes k' pg'
  end.

(** What the filter looks at in a text node: the name and the classes of
    its parent, and its value. *)
Definition shape : Type := string * list string * jsstring.

Definition shape_of (e : text_entry) : shape := (parentName e, parentClasses e, value e).

Definition eligible_shape (R : RegExp) (s : shape) : bool :=
  eligible R (mkEntry [] 0 (fst (fst s)) (snd (fst s)) (snd s)).

Definition node_shapes (n : node) : list shape := map shape_of (text_entries_below n []).

Definition children_shapes (nm : string) (cls : list string) (ks : list node) : list shape :=
  flat_map (fun k => map shape_of (child_entries nm cls [] k 0)) ks.

(** The number of text nodes of the document that the filter accepts. *)
Definition eligible_count (R : RegExp) (doc : node) : nat :=
  length (List.filter (eligible_shape R) (node_shapes doc)).

(** A page on which the censor can work: the expression of the script for
    the alternatives [alts], [lastIndex] at 0, and no HTML-special character
    in any text node. *)
Definition ready (toUpperCase : char -> option char) (alts : list jsstring)
    (R : RegExp) (pg : Page) : Prop :=
  nameRegex pg = Some R
  /\ RegExpMatcher R = name_matcher toUpperCase alts
  /\ lastIndex R = 0
  /\ Forall (fun s => html_plain (snd s)) (node_shapes (body pg)).

(** A node whose text nodes hold no HTML-special character, for the nodes
    that a replacement builds. *)
Definition plain_node (n : node) : Prop :=
  match n with
  | Text v => html_plain v
  | Element _ _ kids =>
      Forall (fun k => match k with Text v => html_plain v | Element _ _ _ => False end) kids
  end.

(** ASCII letters and their other case. *)
Definition is_ascii_letter (c : char) : bool := in_range 97 122 c || in_range 65 90 c.

Definition swap_case (c : char) : char :=
  if in_range 97 122 c then N.sub c 32
  else if in_range 65 90 c then N.add c 32
  else c.

(** * Properties *)

(** ** Name Dictionary Loader *)

(** C6: the loader is said to hand over only non-empty, trimmed entries,
    also for lines of whitespace.  On the list "Alice", a line of three
    spaces, "Bob", the entry in the middle is the empty string: the list is
    filtered before it is trimmed. *)
Theorem loader_keeps_whitespace_line_as_empty_entry :
  parse_name_list (js "Alice" ++ [LF] ++ js "   " ++ [LF] ++ js "Bob")
  = [js "Alice"; []; js "Bob"].
Proof. vm_compute. reflexivity. Qed.

Lemma trim_start_head (s : jsstring) : starts_without_space (trim_start s).
Proof.
  induction s as [|c s IH]; simpl; [exact I|].
  destruct (is_trim_space c) eqn:E; [exact IH|exact E].
Qed.

Lemma trim_start_suffix (s : jsstring) : exists pre, s = pre ++ trim_start s.
Proof.
  induction s as [|c s [pre IH]]; simpl; [now exists []|].
  destruct (is_trim_space c).
  - exists (c :: pre). simpl. now f_equal.
  - now exists [].
Qed.

(** What [trim] returns has no white space at either end. *)
Lemma trim_trimmed (s : jsstring) : trimmed (trim s).
Proof.
  unfold trimmed, trim. rewrite rev_involutive. split; [|apply trim_start_head].
  destruct (trim_start_suffix (rev (trim_start s))) as [pre Hpre].
  pose proof (trim_start_head s) as Hhead.
  destruct (trim_start (rev (trim_start s))) as [|w ws _] using rev_ind; [exact I|].
  rewrite rev_app_distr. simpl.
  apply (f_equal (@rev char)) in Hpre. rewrite rev_involutive in Hpre.
  rewrite !rev_app_distr in Hpre. simpl in Hpre. rewrite Hpre in Hhead. exact Hhead.
Qed.

(** X1: every entry that the loader hands over has no white space at its
    start and none at its end; it may be empty. *)
Lemma entries_are_trimmed (text : jsstring) :
  Forall trimmed (parse_name_list text).
Proof.
  unfold parse_name_list. apply Forall_forall. intros x Hx.
  apply list_elem_of_In in Hx. apply in_map_iff in Hx.
  destruct Hx as (y & <- & _). apply trim_trimmed.
Qed.

(** ** Toggle and initialisation *)

Lemma censorNames_unset_or_disabled (enabled : bool) (pg : Page) :
  enabled = false \/ nameRegex pg = None -> censorNames enabled pg = Done pg.
Proof.
  intros [-> | H]; unfold censorNames; simpl; [reflexivity|].
  rewrite H. now destruct enabled.
Qed.

Lemma call_censorNames_noop (s : Script) :
  isEnabled s = false \/ matcher_unset s -> page (call_censorNames s) = page s.
Proof.
  intros H. unfold call_censorNames. simpl.
  destruct (page s) as [pg| |] eqn:Epg; simpl; try reflexivity.
  apply censorNames_unset_or_disabled.
  destruct H as [H | (pg' & Hpg & Hre)]; [now left|right].
  congruence.
Qed.

(** The debounced function and the observer callback leave the flag and
    the page alone. *)
Lemma observer_callback_frame (s : Script) :
  isEnabled (observer_callback s) = isEnabled s
  /\ page (observer_callback s) = page s
  /\ trace (observer_callback s) = trace s
  /\ clock (observer_callback s) = clock s
  /\ observers (observer_callback s) = observers s.
Proof. unfold observer_callback. destruct (isEnabled s) eqn:E; simpl; repeat split; auto. Qed.

Lemma iter_observer_callback_frame (n : nat) (s : Script) :
  isEnabled (Nat.iter n observer_callback s) = isEnabled s
  /\ page (Nat.iter n observer_callback s) = page s
  /\ trace (Nat.iter n observer_callback s) = trace s
  /\ clock (Nat.iter n observer_callback s) = clock s
  /\ observers (Nat.iter n observer_callback s) = observers s.
Proof.
  induction n as [|n IH]; simpl; [auto|].
  destruct (observer_callback_frame (Nat.iter n observer_callback s)) as (a & b & c & d & e).
  destruct IH as (a' & b' & c' & d' & e').
  repeat split; congruence.
Qed.

Section ScriptProperties.

Variable RegExp_new : jsstring -> option RegExp.

Lemma deliver_noop (e : event) (s : Script) :
  isEnabled s = false \/ matcher_unset s ->
  match e with Mutations _ | TimeoutFires _ _ => True | _ => False end ->
  page (deliver RegExp_new e s) = page s
  /\ isEnabled (deliver RegExp_new e s) = isEnabled s.
Proof.
  intros Hs He. destruct e as [t|t id|t ch|t r]; try contradiction; unfold deliver.
  - destruct (iter_observer_callback_frame (observers (set_clock t s)) (set_clock t s))
      as (a & b & _). simpl in *. split; congruence.
  - unfold timeout_fires. split; [|reflexivity].
    rewrite call_censorNames_noop; [reflexivity|].
    destruct Hs as [Hs | (pg & Hpg & Hre)]; [now left|right].
    exists pg. split; [exact Hpg|exact Hre].
Qed.

(** C7: while the matcher is unset or the flag is false, a call of the
    censor leaves the page as it is, and so does every run of mutation
    batches and timeouts, each of which ends in such a call or in none. *)
Theorem censor_is_noop_when_unset_or_disabled (s : Script) (es : list event)
  (Hstate : isEnabled s = false \/ matcher_unset s)
  (Hes : only_mutations_and_timeouts es) :
  page (call_censorNames s) = page s /\ page (run RegExp_new es s) = page s.
Proof.
  split; [now apply call_censorNames_noop|].
  revert s Hstate. induction Hes as [|e es He Hes IH]; intros s Hstate; simpl; [reflexivity|].
  destruct (deliver_noop e s Hstate He) as [Hp Hen].
  rewrite IH; [exact Hp|].
  destruct Hstate as [H | (pg & Hpg & Hre)]; [left; congruence|right].
  exists pg. split; [congruence|exact Hre].
Qed.

Lemma empty_lines_give_no_entry (lines : list jsstring) :
  Forall (fun line => line = []) lines ->
  map trim (filter (fun s => Boolean s = true) lines) = [].
Proof.
  induction 1 as [|line lines -> _ IH]; [reflexivity|].
  rewrite filter_cons_False by (simpl; discriminate). exact IH.
Qed.

(** X19: a fetch that fails, a response that is not ok and a text all of
    whose lines are empty leave the matcher as it was, register no observer
    and run no pass.  (Only empty lines are dropped: a line of white space
    is kept as an entry, and the load goes on with it.) *)
Lemma failed_load_leaves_matcher (r : fetch_result) (s : Script) :
  match r with
  | NetworkFailure => True
  | Response ok text => ok = false \/ Forall (fun line => line = []) (split_lines text)
  end ->
  page (fetch_settled RegExp_new r s) = page s
  /\ observers (fetch_settled RegExp_new r s) = observers s
  /\ pass_times (trace (fetch_settled RegExp_new r s)) = pass_times (trace s).
Proof.
  destruct r as [|ok text]; simpl; [auto|].
  intros [-> | H]; [auto|]. destruct ok; [|auto].
  unfold parse_name_list. rewrite (empty_lines_give_no_entry _ H). simpl. auto.
Qed.

(** C8: a change notification that carries a true value runs one censor
    pass, at once, and requests no reload; one that carries a false value
    (or none) requests one reload and runs no censor pass. *)
Theorem storage_change_runs_one_pass_or_one_reload (change : StorageChange) (s : Script) :
  let s' := storage_changed (Some change) s in
  if truthy (newValue change) then
    isEnabled s' = true
    /\ trace s' = (clock s, CensorPass) :: trace s
    /\ page s' = (let* pg := page s in censorNames true pg)
  else
    isEnabled s' = false
    /\ trace s' = (clock s, ReloadRequest) :: trace s
    /\ page s' = page s.
Proof.
  unfold storage_changed. simpl. destruct (truthy (newValue change)); simpl; auto.
Qed.

(** Every successful load registers one more observer: nothing looks at
    the handle kept in [window.geminiCensorObserver]. *)
Lemma successful_load_adds_observer (text : jsstring) (R : RegExp) (s : Script) :
  parse_name_list text <> [] ->
  RegExp_new (js "\b(?:" ++ join [VBAR] (parse_name_list text) ++ js ")\b") = Some R ->
  observers (fetch_settled RegExp_new (Response true text) s) = observers s + 1.
Proof.
  intros Hne HR. unfold fetch_settled.
  destruct (parse_name_list text) as [|n l] eqn:E; [contradiction|].
  simpl length. simpl Nat.eqb. cbv iota. rewrite HR. reflexivity.
Qed.




End ScriptProperties.

(** ** Match Engine: exec and replace *)

Lemma exec_scan_Some m (str : jsstring) (n i j e : nat) :
  exec_scan m str n i = Some (j, e) -> i <= j < i + n /\ m str j = Some e.
Proof.
  revert i. induction n as [|n IH]; intros i; simpl; [discriminate|].
  destruct (m str i) as [e'|] eqn:E.
  - intros [= <- <-]. split; [lia|exact E].
  - intros H. apply IH in H. split; [lia|tauto].
Qed.

Lemma exec_scan_None m (str : jsstring) (n i : nat) :
  exec_scan m str n i = None <-> forall j, i <= j < i + n -> m str j = None.
Proof.
  revert i. induction n as [|n IH]; intros i; simpl.
  - split; [intros _ j Hj; lia|reflexivity].
  - destruct (m str i) as [e'|] eqn:E.
    + split; [discriminate|]. intros H. rewrite H in E; [discriminate|lia].
    + rewrite IH. split; intros H j Hj.
      * destruct (decide (j = i)) as [->|Hne]; [exact E|apply H; lia].
      * apply H; lia.
Qed.

Lemma exec_scan_first m (str : jsstring) (n i j e : nat) :
  exec_scan m str n i = Some (j, e) -> forall k, i <= k < j -> m str k = None.
Proof.
  revert i. induction n as [|n IH]; intros i; simpl; [discriminate|].
  destruct (m str i) as [e'|] eqn:E.
  - intros [= <- <-] k Hk. lia.
  - intros H k Hk. destruct (decide (k = i)) as [->|Hne]; [exact E|].
    apply (IH (S i) H). lia.
Qed.

Lemma exec_Some (R R' : RegExp) (str : jsstring) (j e : nat) :
  RegExpBuiltinExec R str = (Some (j, e), R') ->
  lastIndex R <= j <= length str /\ RegExpMatcher R str j = Some e
  /\ R' = set_lastIndex R e
  /\ (forall k, lastIndex R <= k < j -> RegExpMatcher R str k = None).
Proof.
  unfold RegExpBuiltinExec. destruct (Nat.ltb_spec (length str) (lastIndex R)); [discriminate|].
  destruct (exec_scan _ _ _ _) as [[j' e']|] eqn:E; [|discriminate].
  intros [= -> -> <-]. pose proof (exec_scan_first _ _ _ _ _ _ E) as Hfirst.
  apply exec_scan_Some in E. split; [lia|]. tauto.
Qed.

Lemma exec_None (R R' : RegExp) (str : jsstring) :
  RegExpBuiltinExec R str = (None, R') ->
  R' = set_lastIndex R 0
  /\ (forall j, lastIndex R <= j <= length str -> RegExpMatcher R str j = None).
Proof.
  unfold RegExpBuiltinExec. destruct (Nat.ltb_spec (length str) (lastIndex R)).
  - intros [= <-]. split; [reflexivity|]. intros j Hj. lia.
  - destruct (exec_scan _ _ _ _) as [[j' e']|] eqn:E; [discriminate|]. intros [= <-].
    split; [reflexivity|]. intros j Hj. rewrite exec_scan_None in E. apply E. lia.
Qed.

(** The loop of replace ends within the fuel it is given, with the matches
    in the order of the text, nothing matched in between, and [lastIndex]
    back at 0. *)
Lemma collect_matches_total (str : jsstring) (fuel : nat) (R : RegExp) :
  forward (RegExpMatcher R) ->
  length str + 1 - lastIndex R < fuel ->
  exists ms, collect_matches fuel R str = Done (ms, set_lastIndex R 0)
             /\ sorted_from (lastIndex R) ms
             /\ Forall (fun '(i, e) => RegExpMatcher R str i = Some e) ms
             /\ gaps_free (RegExpMatcher R) str (lastIndex R) ms.
Proof.
  intros Hfw. revert R Hfw. induction fuel as [|fuel IH]; intros R Hfw Hfuel; [lia|].
  simpl. destruct (RegExpBuiltinExec R str) as [[[i e]|] R'] eqn:E.
  - apply exec_Some in E. destruct E as (Hi & Hm & -> & Hgap).
    pose proof (Hfw _ _ _ Hm) as Hie.
    set (R'' := if e =? i then _ else _).
    assert (HR'' : RegExpMatcher R'' = RegExpMatcher R /\ e <= lastIndex R''
                   /\ lastIndex R < lastIndex R''
                   /\ lastIndex R'' = if e =? i then e + 1 else e).
    { subst R''. destruct (Nat.eqb_spec e i); simpl; repeat split; lia. }
    destruct HR'' as (Hm'' & Hle & Hlt & Hnext).
    destruct (IH R'') as (ms & Hms & Hsorted & Hall & Hfree).
    { rewrite Hm''. exact Hfw. }
    { lia. }
    rewrite Hms. simpl. exists ((i, e) :: ms). split; [|split; [|split]].
    + f_equal. f_equal. unfold set_lastIndex. now rewrite Hm''.
    + simpl. repeat split; try lia.
      clear -Hsorted Hle. destruct ms as [|[a b] ms]; simpl in *; [exact I|].
      repeat split; try tauto; lia.
    + constructor; [exact Hm|]. now rewrite Hm'' in Hall.
    + simpl. split; [exact Hgap|]. rewrite <- Hnext, <- Hm''. exact Hfree.
  - apply exec_None in E. destruct E as [-> Hgap]. exists []. simpl. auto.
Qed.

Lemma substring_glue (str : jsstring) (a b c : nat) :
  a <= b -> b <= c -> substring str a b ++ substring str b c ++ drop c str = drop a str.
Proof.
  intros Hab Hbc. unfold substring.
  replace (drop c str) with (drop (c - b) (drop b str))
    by (rewrite drop_drop; f_equal; lia).
  rewrite take_drop.
  replace (drop b str) with (drop (b - a) (drop a str))
    by (rewrite drop_drop; f_equal; lia).
  apply take_drop.
Qed.

Lemma build_result_identity (str : jsstring) (ms : list (nat * nat)) (next : nat) :
  sorted_from next ms -> build_result str (fun m => m) ms next = drop next str.
Proof.
  revert next. induction ms as [|[i e] ms IH]; intros next; simpl; [reflexivity|].
  intros (Hni & Hie & Hs). destruct (Nat.leb_spec next i); [|lia].
  rewrite (IH e Hs). now apply substring_glue.
Qed.

(** C4: replacing every match by itself gives the text back, whatever the
    expression (the expression of any dictionary has a forward matcher). *)
Theorem replace_with_identity_roundtrip (R : RegExp) (T : jsstring)
  (Hforward : forward (RegExpMatcher R)) :
  String_replace T R (fun m => m) = Done (T, set_lastIndex R 0).
Proof.
  unfold String_replace.
  destruct (collect_matches_total T (length T + 2) (set_lastIndex R 0)) as (ms & Hms & Hs & _).
  - exact Hforward.
  - simpl. lia.
  - rewrite Hms. simpl. rewrite build_result_identity by exact Hs. reflexivity.
Qed.

(** ** Text-Node Censor: the pass that finds nothing *)

Lemma test_without_match (R : RegExp) (str : jsstring) :
  contains_match R str = false ->
  RegExp_test R str = (false, set_lastIndex R 0).
Proof.
  unfold contains_match, RegExp_test, RegExpBuiltinExec. intros H.
  destruct (exec_scan (RegExpMatcher R) str (length str + 1) 0) as [x|] eqn:E0; [discriminate|].
  destruct (length str <? lastIndex R); [reflexivity|].
  destruct (exec_scan _ _ (length str + 1 - lastIndex R) _) as [[j e]|] eqn:E; [|reflexivity].
  apply exec_scan_Some in E. destruct E as [Hj Hm].
  rewrite exec_scan_None in E0. rewrite E0 in Hm; [discriminate|lia].
Qed.

Lemma acceptNode_without_match (R : RegExp) (e : text_entry) :
  contains_match R (value e) = false ->
  exists i, acceptNode R e = (false, set_lastIndex R i).
Proof.
  intros H. unfold acceptNode.
  destruct (_ || _).
  - exists (lastIndex R). now destruct R.
  - rewrite test_without_match by exact H. now exists 0.
Qed.

Lemma first_accepted_without_match (R : RegExp) (es : list text_entry) :
  (forall e, In e es -> contains_match R (value e) = false) ->
  exists i, first_accepted R es = (None, set_lastIndex R i).
Proof.
  revert R. induction es as [|e es IH]; intros R H; simpl.
  - exists (lastIndex R). now destruct R.
  - destruct (acceptNode_without_match R e) as [i Hi]; [apply H; now left|].
    rewrite Hi. destruct (IH (set_lastIndex R i)) as [k Hk].
    + intros e' He'. apply (H e'). now right.
    + exists k. exact Hk.
Qed.

(** C5: when no text node below the body contains a match, the pass ends,
    the body is the one it started with, and no child-list mutation has been
    made. *)
Theorem no_match_leaves_document_untouched (enabled : bool) (pg : Page)
  (Hnone : forall R e, nameRegex pg = Some R ->
             In e (text_entries_below (body pg) []) ->
             contains_match R (value e) = false) :
  exists pg', censorNames enabled pg = Done pg'
              /\ body pg' = body pg /\ mutations pg' = mutations pg.
Proof.
  unfold censorNames. destruct enabled; simpl; [|now exists pg].
  destruct (nameRegex pg) as [R|] eqn:ER; [|now exists pg].
  rewrite Nat.add_1_r. simpl. unfold nextNode.
  destruct (first_accepted_without_match R (following_text (body pg) (Attached []))) as [i Hi].
  - intros e He. apply (Hnone R e eq_refl).
    simpl in He. apply list_elem_of_In in He. apply list_elem_of_filter in He.
    apply list_elem_of_In. tauto.
  - rewrite Hi. simpl. eexists. split; [reflexivity|]. simpl. auto.
Qed.

(** ** Mutation Watcher: the debounce *)

Lemma debounced_arms (w : nat) (s : Script) :
  idle_or_armed s -> armed (debounced w s) (clock s + w).
Proof.
  intros H. exists (nextTimeoutId s). split; [reflexivity|].
  unfold debounced. simpl.
  destruct H as [H | (due & id & Ht & Hm)].
  - rewrite H. destruct (timer s); simpl; [rewrite delete_empty|]; apply insert_empty.
  - rewrite Ht, Hm. simpl. rewrite delete_singleton_eq. apply insert_empty.
Qed.

Lemma armed_idle_or_armed (s : Script) (due : nat) : armed s due -> idle_or_armed s.
Proof. intros H. right. now exists due. Qed.



Section Debounce.

Variable RegExp_new : jsstring -> option RegExp.





End Debounce.

(** ** Match Engine: the expression of the script *)

Section NameMatcherProperties.

Variable toUpperCase : char -> option char.

Lemma match_alternatives_Some (alts : list jsstring) (Input : jsstring) (i e : nat) :
  match_alternatives toUpperCase alts Input i = Some e ->
  exists name, In name alts /\ e = i + length name
               /\ match_literal toUpperCase name Input i = true
               /\ word_boundary Input (i + length name) = true.
Proof.
  induction alts as [|a alts IH]; simpl; [discriminate|].
  destruct (match_literal toUpperCase a Input i && word_boundary Input (i + length a)) eqn:E.
  - intros [= <-]. apply andb_true_iff in E. exists a. tauto.
  - intros H. destruct (IH H) as (name & Hin & Hrest). exists name. tauto.
Qed.

Lemma name_matcher_forward (alts : list jsstring) :
  forward (name_matcher toUpperCase alts).
Proof.
  intros str i e. unfold name_matcher. destruct (word_boundary str i); [|discriminate].
  intros H. apply match_alternatives_Some in H. destruct H as (name & _ & -> & _). lia.
Qed.

End NameMatcherProperties.

(** C1: the matcher is said to match every occurrence of an entry as a whole
    word, for every dictionary without syntax characters.  The entry "José"
    has none; in the text "José went" it stands as a whole word, with the
    start of the text before it and a space after it; the expression of the
    script does not match the text: its last letter is no word character for
    [\b], which then finds no boundary between that letter and the space. *)
Theorem accented_name_is_not_matched :
  let name := js "Jos" ++ [233%N] in
  let text := name ++ js " went" in
  plain_entry name
  /\ whole_word_at toUpperCase_latin1 name text 0 = true
  /\ exists R, compile_latin1 [name] = Some R
               /\ RegExp_test R text = (false, R)
               /\ contains_match R text = false.
Proof.
  split; [|split].
  - repeat constructor.
  - vm_compute. reflexivity.
  - eexists. split; [vm_compute; reflexivity|]. split; vm_compute; reflexivity.
Qed.

(** The three examples of the specification: "Anders" is not matched in
    "Anderson" and is matched in "Anders works here"; "Alice" is matched in
    any mix of cases. *)
Example whole_word_and_case_examples :
  (exists R, compile_latin1 [js "Anders"] = Some R
     /\ contains_match R (js "Anderson") = false
     /\ contains_match R (js "Anders works here") = true)
  /\ (exists R, compile_latin1 [js "Alice"] = Some R
     /\ contains_match R (js "alice") = true
     /\ contains_match R (js "ALICE") = true
     /\ contains_match R (js "AlIcE") = true).
Proof.
  split; eexists; (split; [vm_compute; reflexivity|]); repeat split; vm_compute; reflexivity.
Qed.

(** ** Text-Node Censor: what a pass does to a text node *)

(** C2: the text outside the matches is said to reach the document byte for
    byte, also with HTML-special characters.  The text node
    "Alice &lt; Bob" (the six characters of the reference included) is
    replaced by the span of "Alice" and the text " < Bob": the text outside
    the match has been read as markup. *)
Theorem unmatched_text_is_read_as_markup :
  let doc := Element "BODY" [] [Element "P" [] [Text (js "Alice &lt; Bob")]] in
  exists R pg',
    compile_latin1 [js "Alice"] = Some R
    /\ censorNames true {| body := doc; nameRegex := Some R; mutations := 0 |} = Done pg'
    /\ body pg' = Element "BODY" []
                    [Element "P" []
                       [Element "SPAN" [SPOILER_CLASS] [Text (js "Alice")];
                        Text (js " < Bob")]]
    /\ textContent (body pg') = js "Alice < Bob"
    /\ textContent doc = js "Alice &lt; Bob".
Proof.
  eexists. eexists. split; [vm_compute; reflexivity|].
  split; [vm_compute; reflexivity|]. repeat split; vm_compute; reflexivity.
Qed.

(** C3: a second pass is said to wrap nothing more.  With the names "Alice"
    and "Bob" and one paragraph for each, the first pass wraps "Alice" only:
    the text node it has replaced and removed is the current node of the
    walker, and nothing follows a removed node.  The second pass wraps
    "Bob". *)
Theorem second_pass_wraps_more :
  let doc := Element "BODY" []
               [Element "P" [] [Text (js "Alice")]; Element "P" [] [Text (js "Bob")]] in
  exists R pg1 pg2,
    compile_latin1 [js "Alice"; js "Bob"] = Some R
    /\ censorNames true {| body := doc; nameRegex := Some R; mutations := 0 |} = Done pg1
    /\ censorNames true pg1 = Done pg2
    /\ body pg1 = Element "BODY" []
                    [Element "P" [] [Element "SPAN" [SPOILER_CLASS] [Text (js "Alice")]];
                     Element "P" [] [Text (js "Bob")]]
    /\ body pg2 = Element "BODY" []
                    [Element "P" [] [Element "SPAN" [SPOILER_CLASS] [Text (js "Alice")]];
                     Element "P" [] [Element "SPAN" [SPOILER_CLASS] [Text (js "Bob")]]]
    /\ mutations pg1 = 2 /\ mutations pg2 = 4.
Proof.
  eexists. eexists. eexists. split; [vm_compute; reflexivity|].
  split; [vm_compute; reflexivity|]. split; [vm_compute; reflexivity|].
  repeat split; vm_compute; reflexivity.
Qed.

(** In one text node too a second pass can wrap more: the text the first
    pass leaves outside its spans has been read as markup, and "R &amp; B"
    has become the entry "R & B". *)
Lemma second_pass_wraps_decoded_text :
  let doc := Element "BODY" [] [Element "P" [] [Text (js "R &amp; B Bob")]] in
  exists R pg1 pg2,
    compile_latin1 [js "Bob"; js "R & B"] = Some R
    /\ censorNames true {| body := doc; nameRegex := Some R; mutations := 0 |} = Done pg1
    /\ censorNames true pg1 = Done pg2
    /\ body pg1 = Element "BODY" []
                    [Element "P" []
                       [Text (js "R & B ");
                        Element "SPAN" [SPOILER_CLASS] [Text (js "Bob")]]]
    /\ body pg2 = Element "BODY" []
                    [Element "P" []
                       [Element "SPAN" [SPOILER_CLASS] [Text (js "R & B")];
                        Text (js " ");
                        Element "SPAN" [SPOILER_CLASS] [Text (js "Bob")]]].
Proof.
  eexists. eexists. eexists. split; [vm_compute; reflexivity|].
  split; [vm_compute; reflexivity|]. split; [vm_compute; reflexivity|].
  split; vm_compute; reflexivity.
Qed.

(** ** Match Engine: entries that begin and end with a word character *)

Section WordEdgedEntries.

Variable toUpperCase : char -> option char.

Ltac bool_to_prop H :=
  repeat first
    [ rewrite orb_true_iff in H | rewrite andb_true_iff in H
    | rewrite N.leb_le in H | rewrite N.eqb_eq in H | rewrite N.ltb_lt in H ].

(** Up to case, a word character is matched by word characters only: a code
    unit of 128 or more is never folded onto one below 128. *)
Lemma char_matches_word (p c : char) :
  is_word_char p = true -> char_matches toUpperCase p c = true -> is_word_char c = true.
Proof.
  unfold char_matches, is_word_char, char_eqb, in_range. intros Hp Hm.
  bool_to_prop Hp. apply N.eqb_eq in Hm.
  assert (Hlow : (p < 128)%N) by lia.
  unfold Canonicalize in Hm. unfold in_range in Hm.
  destruct (N.ltb_spec p 128) as [_|]; [|lia].
  assert (Hc : (c < 128)%N).
  { destruct (N.ltb_spec c 128) as [|Hge]; [assumption|exfalso].
    destruct (toUpperCase c) as [cu|].
    - destruct (N.ltb_spec cu 128);
        destruct (N.leb_spec 97 p); destruct (N.leb_spec p 122); simpl in Hm; lia.
    - destruct (N.leb_spec 97 p); destruct (N.leb_spec p 122); simpl in Hm; lia. }
  destruct (N.ltb_spec c 128) as [_|]; [|lia].
  repeat rewrite orb_true_iff. repeat rewrite andb_true_iff.
  repeat rewrite N.leb_le. rewrite N.eqb_eq.
  destruct (N.leb_spec 97 p); destruct (N.leb_spec p 122);
    destruct (N.leb_spec 97 c); destruct (N.leb_spec c 122); simpl in Hm; lia.
Qed.

Lemma match_literal_lookup (name Input : jsstring) (i : nat) :
  match_literal toUpperCase name Input i = true ->
  forall k p, name !! k = Some p ->
  exists c, Input !! (i + k) = Some c /\ char_matches toUpperCase p c = true.
Proof.
  revert i. induction name as [|q name IH]; intros i H k p Hk; [discriminate|].
  simpl in H. destruct (Input !! i) as [c|] eqn:Ec; [|discriminate].
  apply andb_true_iff in H. destruct H as [Hq Hrest].
  destruct k as [|k]; simpl in Hk.
  - injection Hk as <-. exists c. rewrite Nat.add_0_r. auto.
  - destruct (IH (S i) Hrest k p Hk) as (c' & Hc' & Hm).
    exists c'. rewrite <- Nat.add_succ_comm. auto.
Qed.

Lemma last_default_irrelevant (rest : jsstring) (x c d : char) :
  List.last (x :: rest) c = List.last (x :: rest) d.
Proof.
  revert x. induction rest as [|y rest IH]; intros x; [reflexivity|].
  change (List.last (y :: rest) c = List.last (y :: rest) d). apply IH.
Qed.

Lemma lookup_last (rest : jsstring) (c : char) :
  (c :: rest) !! length rest = Some (List.last rest c).
Proof.
  revert c. induction rest as [|d rest IH]; intros c; [reflexivity|].
  change ((d :: rest) !! length rest = Some (List.last (d :: rest) c)).
  rewrite IH. f_equal. destruct rest as [|x rest]; [reflexivity|].
  change (List.last (x :: rest) d = List.last (x :: rest) c).
  apply last_default_irrelevant.
Qed.

Lemma word_edged_ends (name : jsstring) :
  word_edged name ->
  exists first lst, name !! 0 = Some first /\ name !! (length name - 1) = Some lst
                    /\ is_word_char first = true /\ is_word_char lst = true.
Proof.
  destruct name as [|c rest]; simpl; [contradiction|]. intros [Hc Hl].
  exists c, (List.last rest c). repeat split; auto.
  rewrite Nat.sub_0_r. apply lookup_last.
Qed.

(** Where a word-edged entry occurs, [\b] holds at its start exactly when no
    word character comes before, and at its end exactly when none comes
    after. *)
Lemma boundaries_of_occurrence (name Input : jsstring) (i : nat) :
  word_edged name -> match_literal toUpperCase name Input i = true ->
  word_boundary Input i = negb (word_before Input i)
  /\ word_boundary Input (i + length name) = negb (word_at Input (i + length name)).
Proof.
  intros Hedge Hocc.
  destruct (word_edged_ends name Hedge) as (f & l & Hf & Hl & Hwf & Hwl).
  destruct (match_literal_lookup name Input i Hocc 0 f Hf) as (c & Hc & Hmc).
  destruct (match_literal_lookup name Input i Hocc _ l Hl) as (d & Hd & Hmd).
  assert (Hlen : 0 < length name) by (destruct name; [discriminate|simpl; lia]).
  unfold word_boundary. split.
  - unfold word_at at 1. rewrite Nat.add_0_r in Hc. rewrite Hc.
    rewrite (char_matches_word f c Hwf Hmc). now destruct (word_before Input i).
  - unfold word_before. destruct (i + length name) as [|n] eqn:En; [lia|].
    unfold word_at at 1. replace n with (i + (length name - 1)) by lia.
    rewrite Hd. rewrite (char_matches_word l d Hwl Hmd). reflexivity.
Qed.

Lemma whole_word_iff (name Input : jsstring) (i : nat) :
  word_edged name ->
  whole_word_at toUpperCase name Input i = true
  <-> word_boundary Input i = true
      /\ match_literal toUpperCase name Input i = true
      /\ word_boundary Input (i + length name) = true.
Proof.
  intros Hedge. unfold whole_word_at, occurs_at.
  destruct (match_literal toUpperCase name Input i) eqn:Hocc.
  - destruct (boundaries_of_occurrence name Input i Hedge Hocc) as [-> ->].
    rewrite !andb_true_iff. simpl. tauto.
  - simpl. split; [discriminate|]. intros (_ & H & _). discriminate.
Qed.

Lemma match_alternatives_complete (alts : list jsstring) (Input : jsstring) (i : nat)
    (name : jsstring) :
  In name alts -> match_literal toUpperCase name Input i = true ->
  word_boundary Input (i + length name) = true ->
  is_Some (match_alternatives toUpperCase alts Input i).
Proof.
  induction alts as [|a alts IH]; simpl; [contradiction|]. intros [-> | Hin] Hocc Hb.
  - rewrite Hocc, Hb. simpl. eauto.
  - destruct (_ && _); [eauto|]. now apply IH.
Qed.

(** The matcher of the script at one index, for word-edged entries. *)
Lemma name_matcher_whole_words (D : list jsstring) (Input : jsstring) (i : nat) :
  Forall word_edged D ->
  (forall e, name_matcher toUpperCase D Input i = Some e ->
     exists name, In name D /\ e = i + length name
                  /\ whole_word_at toUpperCase name Input i = true)
  /\ (forall name, In name D -> whole_word_at toUpperCase name Input i = true ->
        is_Some (name_matcher toUpperCase D Input i)).
Proof.
  intros Hedged. rewrite Forall_forall in Hedged. unfold name_matcher. split.
  - intros e. destruct (word_boundary Input i) eqn:Hb; [|discriminate].
    intros H. apply match_alternatives_Some in H.
    destruct H as (name & Hin & -> & Hocc & Hend). exists name. repeat split; auto.
    apply whole_word_iff; auto. apply Hedged. now apply list_elem_of_In.
  - intros name Hin Hw. apply whole_word_iff in Hw; [|apply Hedged; now apply list_elem_of_In].
    destruct Hw as (Hb & Hocc & Hend). rewrite Hb.
    now apply (match_alternatives_complete D Input i name).
Qed.

(** The parser reads a dictionary of plain entries back. *)
Lemma is_syntax_char_false (c : char) :
  is_syntax_char c = false -> char_eqb c RPAREN = false /\ char_eqb c VBAR = false.
Proof.
  unfold is_syntax_char. intros H.
  repeat (apply orb_false_iff in H; destruct H as [H ?]). split; assumption.
Qed.

Lemma parse_disjunction_entry (name rest cur : jsstring) :
  plain_entry name ->
  parse_disjunction (name ++ rest) cur = parse_disjunction rest (rev name ++ cur).
Proof.
  revert cur. induction name as [|c name IH]; intros cur Hp; [reflexivity|].
  apply Forall_cons in Hp. destruct Hp as [Hc Hp].
  destruct (is_syntax_char_false c Hc) as [H1 H2].
  simpl. rewrite H1, H2, Hc. rewrite IH by exact Hp.
  now rewrite <- app_assoc.
Qed.

Lemma parse_disjunction_join (D : list jsstring) :
  D <> [] -> Forall plain_entry D ->
  parse_disjunction (join [VBAR] D ++ js ")\b") [] = Some D.
Proof.
  induction D as [|name D IH]; [contradiction|]. intros _ Hp.
  apply Forall_cons in Hp. destruct Hp as [Hn Hp].
  destruct D as [|name' D'].
  - simpl join. rewrite parse_disjunction_entry by exact Hn.
    rewrite app_nil_r. vm_compute js. simpl. now rewrite rev_involutive.
  - change (join [VBAR] (name :: name' :: D'))
      with (name ++ [VBAR] ++ join [VBAR] (name' :: D')).
    rewrite <- !app_assoc. rewrite parse_disjunction_entry by exact Hn.
    change ([VBAR] ++ ?x) with (VBAR :: x).
    cbn [parse_disjunction app]. change (char_eqb VBAR RPAREN) with false.
    change (char_eqb VBAR VBAR) with true. cbv iota.
    rewrite IH by (auto; discriminate). rewrite app_nil_r. now rewrite rev_involutive.
Qed.

Lemma compile_plain (D : list jsstring) :
  D <> [] -> Forall plain_entry D ->
  compile toUpperCase D
  = Some {| RegExpMatcher := name_matcher toUpperCase D; lastIndex := 0 |}.
Proof.
  intros Hne Hp. unfold compile, parse_pattern.
  change (js "\b(?:") with [92%N; 98%N; 40%N; 63%N; 58%N].
  cbn [app strip_prefix]. change (char_eqb 92 92) with true.
  change (char_eqb 98 98) with true. change (char_eqb 40 40) with true.
  change (char_eqb 63 63) with true. change (char_eqb 58 58) with true. cbv iota.
  now rewrite parse_disjunction_join.
Qed.

Lemma contains_match_iff (R : RegExp) (str : jsstring) :
  contains_match R str = true
  <-> exists i, i <= length str /\ is_Some (RegExpMatcher R str i).
Proof.
  unfold contains_match.
  destruct (exec_scan (RegExpMatcher R) str (length str + 1) 0) as [[j e]|] eqn:E.
  - apply exec_scan_Some in E. split; [|reflexivity]. intros _. exists j. split; [lia|].
    destruct E as [_ ->]. eauto.
  - rewrite exec_scan_None in E. split; [discriminate|].
    intros (i & Hi & [e He]). rewrite E in He; [discriminate|lia].
Qed.

Lemma occurrence_in_range (name Input : jsstring) (i : nat) :
  name <> [] -> match_literal toUpperCase name Input i = true -> i < length Input.
Proof.
  destruct name as [|p name]; [contradiction|]. intros _. simpl.
  destruct (Input !! i) as [c|] eqn:E; [|discriminate]. intros _.
  now apply lookup_lt_Some in E.
Qed.

(** X20: for a dictionary with at least one entry, whose entries are plain
    and begin and end with a word character, the expression of the script
    matches at an index exactly where an entry occurs there as a whole word
    up to case, and a text passes [test] exactly when it holds such an
    occurrence. *)
Theorem matcher_matches_whole_words (D : list jsstring) (Input : jsstring) :
  D <> [] -> Forall plain_entry D -> Forall word_edged D ->
  exists R, compile toUpperCase D = Some R
    /\ lastIndex R = 0
    /\ (forall i e, RegExpMatcher R Input i = Some e ->
          exists name, In name D /\ e = i + length name
                       /\ whole_word_at toUpperCase name Input i = true)
    /\ (forall i name, In name D -> whole_word_at toUpperCase name Input i = true ->
          is_Some (RegExpMatcher R Input i))
    /\ (fst (RegExp_test R Input) = true <-> spec_matches toUpperCase D Input)
    /\ (contains_match R Input = true <-> spec_matches toUpperCase D Input).
Proof.
  intros Hne Hp Hedged. eexists. split; [now apply compile_plain|].
  split; [reflexivity|]. simpl RegExpMatcher.
  split; [intros i; apply name_matcher_whole_words; exact Hedged|].
  split; [intros i; apply name_matcher_whole_words; exact Hedged|].
  set (R := {| RegExpMatcher := name_matcher toUpperCase D; lastIndex := 0 |}).
  assert (Hcm : contains_match R Input = true <-> spec_matches toUpperCase D Input).
  { rewrite contains_match_iff. split.
    - intros (i & _ & [e He]). simpl in He.
      apply (proj1 (name_matcher_whole_words D Input i Hedged)) in He.
      destruct He as (name & Hin & _ & Hw). now exists name, i.
    - intros (name & i & Hin & Hw). exists i. split.
      + assert (i < length Input); [|lia].
        apply (occurrence_in_range name Input i).
        * rewrite Forall_forall in Hedged. apply list_elem_of_In in Hin.
          specialize (Hedged name Hin). destruct name; [contradiction|discriminate].
        * unfold whole_word_at, occurs_at in Hw. rewrite !andb_true_iff in Hw. tauto.
      + now apply (proj2 (name_matcher_whole_words D Input i Hedged) name). }
  split; [|exact Hcm].
  rewrite <- Hcm. unfold RegExp_test, RegExpBuiltinExec, contains_match. simpl.
  rewrite Nat.sub_0_r.
  destruct (exec_scan _ _ _ _) as [[j e]|]; simpl; tauto.
Qed.

End WordEdgedEntries.

(** ** Text-Node Censor: one pass *)

Lemma String_replace_total (R : RegExp) (str : jsstring) (f : jsstring -> jsstring) :
  forward (RegExpMatcher R) ->
  exists ms, String_replace str R f = Done (build_result str f ms 0, set_lastIndex R 0)
             /\ sorted_from 0 ms
             /\ Forall (fun '(i, e) => RegExpMatcher R str i = Some e) ms
             /\ gaps_free (RegExpMatcher R) str 0 ms.
Proof.
  intros Hfw. unfold String_replace.
  destruct (collect_matches_total str (length str + 2) (set_lastIndex R 0))
    as (ms & Hms & Hs & Hall & Hfree).
  - exact Hfw.
  - simpl. lia.
  - rewrite Hms. simpl. exists ms. auto.
Qed.

Lemma first_accepted_Some (R R' : RegExp) (es : list text_entry) (e : text_entry) :
  first_accepted R es = (Some e, R') -> In e es.
Proof.
  revert R. induction es as [|x es IH]; intros R; simpl; [discriminate|].
  destruct (acceptNode R x) as [[|] R1].
  - intros [= <- <-]. now left.
  - intros H. right. exact (IH _ H).
Qed.

(** Nothing follows the text node that the loop has just removed. *)
Lemma nextNode_after_removal (doc : node) (v : jsstring) (R : RegExp) :
  nextNode doc (Detached (Text v)) R = (None, R).
Proof. reflexivity. Qed.

(** A pass replaces the first text node that the filter accepts, and no
    other: the loop ends at its second turn at the latest, within its fuel. *)
Lemma censorNames_replaces_one_node (pg : Page) (R : RegExp) :
  nameRegex pg = Some R ->
  censorNames true pg
  = match nextNode (body pg) (Attached []) R with
    | (None, R') =>
        Done {| body := body pg; nameRegex := Some R'; mutations := mutations pg |}
    | (Some e, R') =>
        let* (doc', R'', n) := censor_node (body pg) R' e in
        Done {| body := doc'; nameRegex := Some R''; mutations := mutations pg + n |}
    end.
Proof.
  intros HR. unfold censorNames. simpl. rewrite HR.
  destruct (nextNode (body pg) (Attached []) R) as [[e|] R'] eqn:En.
  - assert (Hin : In e (text_entries_below (body pg) [])).
    { unfold nextNode in En. apply first_accepted_Some in En. simpl in En.
      apply list_elem_of_In in En. apply list_elem_of_filter in En.
      apply list_elem_of_In. tauto. }
    destruct (text_entries_below (body pg) []) as [|x l] eqn:El; [contradiction|].
    simpl length. change (S (length l) + 1) with (S (length l + 1)).
    rewrite Nat.add_1_r. cbn [censor_loop]. rewrite En.
    destruct (censor_node (body pg) R' e) as [[[doc' R''] n]| |]; reflexivity.
  - rewrite Nat.add_1_r. cbn [censor_loop]. rewrite En. reflexivity.
Qed.

(** With a forward matcher a pass never runs out of fuel. *)
Lemma censorNames_within_fuel (enabled : bool) (pg : Page) :
  (forall R, nameRegex pg = Some R -> forward (RegExpMatcher R)) ->
  censorNames enabled pg <> OutOfFuel.
Proof.
  intros Hfw. destruct enabled; [|discriminate].
  destruct (nameRegex pg) as [R|] eqn:HR.
  - rewrite (censorNames_replaces_one_node pg R HR).
    destruct (nextNode (body pg) (Attached []) R) as [[e|] R'] eqn:En; [|discriminate].
    assert (HR' : RegExpMatcher R' = RegExpMatcher R).
    { clear -En. unfold nextNode in En. revert R En.
      induction (following_text (body pg) (Attached [])) as [|x es IH]; intros R; simpl.
      - now intros [= <-].
      - unfold acceptNode. destruct (_ || _).
        + intros H. exact (IH _ H).
        + unfold RegExp_test, RegExpBuiltinExec.
          destruct (length (value x) <? lastIndex R).
          * intros H. exact (IH _ H).
          * destruct (exec_scan _ _ _ _) as [[j k]|].
            -- now intros [= <- <-].
            -- intros H. exact (IH _ H). }
    unfold censor_node.
    destruct (String_replace_total R' (value e) wrap_spoiler) as (ms & -> & _).
    { rewrite HR'. now apply Hfw. }
    simpl. unfold innerHTML. destruct (tokenize _ 0) as [toks|]; [|discriminate].
    destruct (build_tree toks [] []) as [kids|]; [|discriminate].
    simpl. destruct (insert_all _ _ _ _). discriminate.
  - unfold censorNames. simpl. rewrite HR. discriminate.
Qed.

(** ** Text-Node Censor: text without HTML-special characters *)

Lemma strip_prefix_app (p rest : jsstring) : strip_prefix p (p ++ rest) = Some rest.
Proof.
  induction p as [|c p IH]; [reflexivity|]. simpl.
  unfold char_eqb. now rewrite N.eqb_refl.
Qed.

Lemma tokenize_skip (xs rest : jsstring) :
  tokenize (xs ++ rest) (length xs) = tokenize rest 0.
Proof. induction xs as [|c xs IH]; [reflexivity|]. simpl. exact IH. Qed.

Lemma tokenize_plain (xs rest : jsstring) :
  html_plain xs ->
  tokenize (xs ++ rest) 0 = app (map TChar xs) <$> tokenize rest 0.
Proof.
  induction xs as [|c xs IH]; intros Hp.
  - simpl. now destruct (tokenize rest 0).
  - apply Forall_cons in Hp. destruct Hp as [Hc Hp].
    unfold is_html_plain in Hc. apply negb_true_iff in Hc.
    repeat (apply orb_false_iff in Hc; destruct Hc as [Hc ?]).
    cbn [app tokenize]. rewrite Hc, H1. replace (char_eqb c CR || char_eqb c NUL) with false
      by (symmetry; apply orb_false_iff; auto).
    rewrite IH by exact Hp. now destruct (tokenize rest 0).
Qed.

Lemma tokenize_LT (s : jsstring) :
  tokenize (LT :: s) 0
  = if starts_with spoiler_start_tag (LT :: s) then
      cons TStartSpoiler <$> tokenize s (length spoiler_start_tag - 1)
    else if starts_with span_end_tag (LT :: s) then
      cons TEndSpan <$> tokenize s (length span_end_tag - 1)
    else None.
Proof. reflexivity. Qed.

Lemma tokenize_start_tag (rest : jsstring) :
  tokenize (spoiler_start_tag ++ rest) 0 = cons TStartSpoiler <$> tokenize rest 0.
Proof.
  assert (Htag : spoiler_start_tag ++ rest = LT :: (tail spoiler_start_tag ++ rest))
    by reflexivity.
  rewrite Htag, tokenize_LT, <- Htag. unfold starts_with at 1.
  rewrite strip_prefix_app.
  change (length spoiler_start_tag - 1) with (length (tail spoiler_start_tag)).
  apply (f_equal (fmap (cons TStartSpoiler))). apply tokenize_skip.
Qed.

Lemma end_tag_is_no_start_tag (rest : jsstring) :
  starts_with spoiler_start_tag (span_end_tag ++ rest) = false.
Proof. reflexivity. Qed.

Lemma tokenize_end_tag (rest : jsstring) :
  tokenize (span_end_tag ++ rest) 0 = cons TEndSpan <$> tokenize rest 0.
Proof.
  assert (Htag : span_end_tag ++ rest = LT :: (tail span_end_tag ++ rest)) by reflexivity.
  rewrite Htag, tokenize_LT, <- Htag. rewrite end_tag_is_no_start_tag.
  unfold starts_with at 1. rewrite strip_prefix_app.
  change (length span_end_tag - 1) with (length (tail span_end_tag)).
  apply (f_equal (fmap (cons TEndSpan))). apply tokenize_skip.
Qed.

Lemma html_plain_substring (str : jsstring) (a b : nat) :
  html_plain str -> html_plain (substring str a b).
Proof. intros H. unfold substring. apply Forall_take. now apply Forall_drop. Qed.

(** The tokenizer reads the markup written for a plain text as the text
    between the matches and, between a start tag and an end tag, each match. *)
Lemma tokenize_replacement (str : jsstring) (ms : list (nat * nat)) (next : nat) :
  html_plain str ->
  tokenize (build_result str wrap_spoiler ms next) 0 = Some (tokens_of str ms next).
Proof.
  intros Hp. revert next.
  induction ms as [|[i e] ms IH]; intros next; cbn [build_result tokens_of].
  - rewrite <- (app_nil_r (drop next str)) at 1.
    rewrite tokenize_plain by now apply Forall_drop.
    simpl. now rewrite app_nil_r.
  - destruct (next <=? i); [|apply IH].
    rewrite tokenize_plain by now apply html_plain_substring.
    unfold wrap_spoiler.
    rewrite <- (app_assoc spoiler_start_tag), <- (app_assoc (substring str i e)).
    rewrite tokenize_start_tag.
    rewrite tokenize_plain by now apply html_plain_substring.
    rewrite tokenize_end_tag. rewrite IH. reflexivity.
Qed.

Lemma build_tree_chars (xs : jsstring) (toks : list token) (cur : list node)
    (stack : list (list node)) :
  build_tree (map TChar xs ++ toks) cur stack = build_tree toks (append_chars xs cur) stack.
Proof. revert cur. induction xs as [|c xs IH]; intros cur; [reflexivity|]. simpl. apply IH. Qed.

Lemma textContent_app (a b : list node) :
  flat_map textContent (a ++ b) = flat_map textContent a ++ flat_map textContent b.
Proof. apply flat_map_app. Qed.

Lemma textContent_append_char (c : char) (cur : list node) :
  flat_map textContent (rev (append_char c cur)) = flat_map textContent (rev cur) ++ [c].
Proof.
  unfold append_char. destruct cur as [|[v|nm cls kids] cur]; simpl.
  - reflexivity.
  - rewrite !textContent_app. simpl. rewrite !app_nil_r. now rewrite app_assoc.
  - rewrite !textContent_app. simpl. rewrite !app_nil_r. reflexivity.
Qed.

Lemma textContent_append_chars (xs : jsstring) (cur : list node) :
  flat_map textContent (rev (append_chars xs cur)) = flat_map textContent (rev cur) ++ xs.
Proof.
  revert cur. induction xs as [|c xs IH]; intros cur; simpl; [now rewrite app_nil_r|].
  rewrite IH, textContent_append_char. now rewrite <- app_assoc.
Qed.

Lemma build_tree_replacement (str : jsstring) (ms : list (nat * nat)) :
  forall (next : nat) (cur : list node),
  exists kids, build_tree (tokens_of str ms next) cur [] = Some kids
               /\ flat_map textContent kids
                  = flat_map textContent (rev cur) ++ build_result str (fun m => m) ms next.
Proof.
  induction ms as [|[i e] ms IH]; intros next cur; simpl.
  - rewrite <- (app_nil_r (map TChar (drop next str))). rewrite build_tree_chars. simpl.
    eexists. split; [reflexivity|]. apply textContent_append_chars.
  - destruct (next <=? i); [|apply IH].
    rewrite build_tree_chars. cbn [build_tree]. rewrite build_tree_chars. cbn [build_tree].
    destruct (IH e (Element "SPAN" [SPOILER_CLASS] (rev (append_chars (substring str i e) []))
                      :: append_chars (substring str next i) cur)) as (kids & Hk & Ht).
    exists kids. split; [exact Hk|]. rewrite Ht. simpl rev. rewrite textContent_app.
    rewrite textContent_append_chars. simpl flat_map.
    rewrite (textContent_append_chars (substring str i e) []). simpl.
    rewrite app_nil_r. now rewrite <- !app_assoc.
Qed.

(** A text without HTML-special characters comes back from the replacement
    and the parser with the same characters, in text nodes and spoiler
    spans. *)
Theorem plain_text_is_preserved (R : RegExp) (str : jsstring) :
  forward (RegExpMatcher R) -> html_plain str ->
  exists html kids,
    String_replace str R wrap_spoiler = Done (html, set_lastIndex R 0)
    /\ innerHTML html = Done kids
    /\ flat_map textContent kids = str.
Proof.
  intros Hfw Hp. destruct (String_replace_total R str wrap_spoiler Hfw) as (ms & Hrep & Hs & _).
  destruct (build_tree_replacement str ms 0 []) as (kids & Hk & Ht).
  exists (build_result str wrap_spoiler ms 0), kids. split; [exact Hrep|]. split.
  - unfold innerHTML. rewrite tokenize_replacement by exact Hp. now rewrite Hk.
  - rewrite Ht. simpl. rewrite build_result_identity by exact Hs. apply drop_0.
Qed.

(** ** Text-Node Censor: what a pass leaves behind is not wrapped again *)

Lemma lookup_substring (str : jsstring) (a b j : nat) :
  substring str a b !! j = if decide (j < b - a) then str !! (a + j) else None.
Proof.
  unfold substring, jsstring. rewrite lookup_take.
  case_decide; [apply lookup_drop|reflexivity].
Qed.

Lemma word_at_substring (str : jsstring) (a b j : nat) :
  word_at (substring str a b) j = if decide (j < b - a) then word_at str (a + j) else false.
Proof. unfold word_at. rewrite lookup_substring. now case_decide. Qed.

Lemma append_chars_text (xs v : jsstring) (cur : list node) :
  append_chars xs (Text v :: cur) = Text (v ++ xs) :: cur.
Proof.
  revert v. induction xs as [|c xs IH]; intros v; simpl; [now rewrite app_nil_r|].
  rewrite IH. now rewrite <- app_assoc.
Qed.

Lemma append_chars_fresh (xs : jsstring) (cur : list node) :
  no_text_head cur -> rev (append_chars xs cur) = rev cur ++ text_node xs.
Proof.
  intros Hc. destruct xs as [|c xs]; simpl; [now rewrite app_nil_r|].
  unfold append_char.
  destruct cur as [|[v|nm cls kids] cur]; try contradiction;
    rewrite append_chars_text; reflexivity.
Qed.

(** The tree that the parser builds from the markup of a replacement. *)
Lemma build_tree_nodes (str : jsstring) (ms : list (nat * nat)) :
  forall (next : nat) (cur : list node),
  sorted_from next ms -> no_text_head cur ->
  build_tree (tokens_of str ms next) cur [] = Some (rev cur ++ nodes_of str ms next).
Proof.
  induction ms as [|[i e] ms IH]; intros next cur Hs Hc; simpl.
  - rewrite <- (app_nil_r (map TChar (drop next str))). rewrite build_tree_chars. simpl.
    now rewrite append_chars_fresh.
  - destruct Hs as (Hni & Hie & Hs). destruct (Nat.leb_spec next i); [|lia].
    rewrite build_tree_chars. cbn [build_tree]. rewrite build_tree_chars. cbn [build_tree].
    rewrite IH; [|exact Hs|exact I]. simpl rev.
    rewrite (append_chars_fresh (substring str i e) []) by exact I.
    rewrite append_chars_fresh by exact Hc. simpl. now rewrite <- !app_assoc.
Qed.

Section NoSecondWrapping.

Variable toUpperCase : char -> option char.
Variable alts : list jsstring.
Hypothesis alts_nonempty : Forall (fun a => a <> []) alts.

Let m := name_matcher toUpperCase alts.

Lemma match_literal_in_range (name str : jsstring) (i : nat) :
  name <> [] ->
  match_literal toUpperCase name str i = true -> i + length name <= length str.
Proof.
  intros Hne. revert i. induction name as [|p name IH]; [contradiction|]. intros i. simpl.
  destruct (str !! i) as [c|] eqn:E; [|discriminate]. intros H.
  apply lookup_lt_Some in E.
  apply andb_true_iff in H. destruct H as [_ H].
  destruct name as [|q name']; [simpl; lia|].
  apply (IH ltac:(discriminate)) in H. simpl in *. lia.
Qed.

Lemma match_literal_substring (name str : jsstring) (a b k : nat) :
  name <> [] ->
  match_literal toUpperCase name (substring str a b) k = true ->
  match_literal toUpperCase name str (a + k) = true /\ k + length name <= b - a.
Proof.
  intros Hne. revert k. induction name as [|p name IH]; [contradiction|]. intros k. simpl.
  rewrite lookup_substring. case_decide as Hk; [|discriminate].
  destruct (str !! (a + k)) as [c|] eqn:E; [|discriminate]. intros H.
  apply andb_true_iff in H. destruct H as [Hc H]. rewrite Hc. simpl.
  destruct name as [|q name'].
  - simpl. split; [reflexivity|lia].
  - destruct (IH ltac:(discriminate) (S k) H) as [H1 H2].
    rewrite Nat.add_succ_r in H1. split; [exact H1|simpl in *; lia].
Qed.

(** A word boundary inside a piece of the text that is cut at word
    boundaries (or at the ends of the text) is a word boundary of the text. *)
Lemma word_boundary_substring (str : jsstring) (a b k : nat) :
  a <= b -> b <= length str ->
  a = 0 \/ word_boundary str a = true ->
  b = length str \/ word_boundary str b = true ->
  k <= b - a ->
  word_boundary (substring str a b) k = true -> word_boundary str (a + k) = true.
Proof.
  intros Hab Hb Ha Hbe Hk. unfold word_boundary at 1.
  destruct k as [|k].
  - simpl. rewrite word_at_substring. rewrite Nat.add_0_r.
    case_decide; [|discriminate]. intros Hw.
    destruct Ha as [-> | Ha]; [|exact Ha].
    unfold word_boundary. simpl. exact Hw.
  - unfold word_before. rewrite !word_at_substring.
    case_decide; [|lia]. case_decide.
    + replace (a + S k) with (S (a + k)) by lia.
      unfold word_boundary, word_before. auto.
    + assert (a + S k = b) as Hend by lia. rewrite Hend. intros Hw.
      destruct Hbe as [Hbe | Hbe]; [|exact Hbe].
      unfold word_boundary, word_before. destruct b as [|b']; [lia|].
      replace (a + k) with b' in Hw by lia.
      assert (Hout : word_at str (S b') = false).
      { unfold word_at. destruct (str !! S b') eqn:E; [|reflexivity].
        apply lookup_lt_Some in E. lia. }
      rewrite Hout. exact Hw.
Qed.

(** A match inside such a piece is a match of the text. *)
Lemma match_in_piece (str : jsstring) (a b k e : nat) :
  a <= b -> b <= length str ->
  a = 0 \/ word_boundary str a = true ->
  b = length str \/ word_boundary str b = true ->
  m (substring str a b) k = Some e ->
  k < b - a /\ is_Some (m str (a + k)).
Proof.
  intros Hab Hb Ha Hbe. unfold m, name_matcher.
  destruct (word_boundary (substring str a b) k) eqn:Hwb; [|discriminate].
  intros H. apply match_alternatives_Some in H.
  destruct H as (name & Hin & -> & Hocc & Hend).
  assert (Hne : name <> []).
  { rewrite Forall_forall in alts_nonempty. apply alts_nonempty. now apply list_elem_of_In. }
  destruct (match_literal_substring name str a b k Hne Hocc) as [Hocc' Hlen].
  assert (0 < length name) by (destruct name; [contradiction|simpl; lia]).
  split; [lia|].
  rewrite (word_boundary_substring str a b k); auto; [|lia].
  apply (match_alternatives_complete toUpperCase alts str (a + k) name); auto.
  rewrite <- Nat.add_assoc. apply (word_boundary_substring str a b (k + length name)); auto.
Qed.

Lemma piece_without_match (R : RegExp) (str : jsstring) (a b : nat) :
  RegExpMatcher R = m ->
  a <= b -> b <= length str ->
  a = 0 \/ word_boundary str a = true ->
  b = length str \/ word_boundary str b = true ->
  (forall j, a <= j < b -> m str j = None) ->
  contains_match R (substring str a b) = false.
Proof.
  intros HR Hab Hb Ha Hbe Hgap.
  destruct (contains_match R (substring str a b)) eqn:E; [exfalso|reflexivity].
  apply contains_match_iff in E. destruct E as (k & _ & [e He]). rewrite HR in He.
  destruct (match_in_piece str a b k e Hab Hb Ha Hbe He) as [Hk [e' He']].
  rewrite Hgap in He'; [discriminate|lia].
Qed.

Lemma text_node_inert (R : RegExp) (v : jsstring) :
  contains_match R v = false -> Forall (inert R) (text_node v).
Proof. intros H. destruct v; simpl; repeat constructor. exact H. Qed.

Lemma text_node_is_text (v : jsstring) : Forall is_text (text_node v).
Proof. destruct v; simpl; repeat constructor. Qed.

(** Every node built for a replacement is inert. *)
Lemma nodes_of_inert (R : RegExp) (str : jsstring) (ms : list (nat * nat)) :
  RegExpMatcher R = m ->
  forall next,
  next <= length str ->
  next = 0 \/ word_boundary str next = true ->
  sorted_from next ms ->
  Forall (fun '(i, e) => m str i = Some e) ms ->
  gaps_free m str next ms ->
  Forall (inert R) (nodes_of str ms next).
Proof.
  intros HR. induction ms as [|[i e] ms IH]; intros next Hlen Hedge Hs Hall Hfree; simpl.
  - apply text_node_inert. replace (drop next str) with (substring str next (length str)).
    + apply piece_without_match; auto. intros j Hj. apply Hfree. lia.
    + unfold substring. apply take_ge. rewrite length_drop. lia.
  - destruct Hs as (Hni & Hie & Hs). destruct Hfree as [Hgap Hfree].
    apply Forall_cons in Hall. destruct Hall as [Hm Hall].
    pose proof Hm as Hm0. unfold m, name_matcher in Hm.
    destruct (word_boundary str i) eqn:Hwi; [|discriminate].
    apply match_alternatives_Some in Hm. destruct Hm as (name & Hin & -> & Hocc & Hwe).
    assert (Hne : name <> []).
    { rewrite Forall_forall in alts_nonempty. apply alts_nonempty. now apply list_elem_of_In. }
    assert (0 < length name) by (destruct name; [contradiction|simpl; lia]).
    pose proof (match_literal_in_range name str i Hne Hocc) as Hrange.
    apply Forall_app. split.
    + apply text_node_inert. apply piece_without_match; auto; lia.
    + constructor.
      * simpl. split; [now left|apply text_node_is_text].
      * apply IH; auto.
        destruct (Nat.eqb_spec (i + length name) i); [lia|exact Hfree].
Qed.

(** The filter rejects every text node of an inert node. *)
Lemma acceptNode_spoiler_child (R : RegExp) (e : text_entry) :
  In SPOILER_CLASS (parentClasses e) -> acceptNode R e = (false, R).
Proof.
  intros Hin. unfold acceptNode.
  assert (Hex : existsb (String.eqb SPOILER_CLASS) (parentClasses e) = true).
  { apply existsb_exists. exists SPOILER_CLASS. split; [exact Hin|apply String.eqb_refl]. }
  rewrite Hex. rewrite orb_true_r. reflexivity.
Qed.

Lemma entries_of_text_children (nm : string) (cls : list string) (here : path)
    (kids : list node) :
  Forall is_text kids ->
  Forall (fun e => parentClasses e = cls) (text_entries_below (Element nm cls kids) here).
Proof.
  simpl. generalize 0 as i. induction kids as [|k kids IH]; intros i Hk; [constructor|].
  apply Forall_cons in Hk. destruct Hk as [Hk Hks].
  destruct k as [v|? ? ?]; [|contradiction].
  constructor; [reflexivity|]. now apply IH.
Qed.

Lemma entries_of_inert_rejected (R : RegExp) (nm : string) (cls : list string)
    (here : path) (kids : list node) :
  Forall (inert R) kids ->
  Forall (fun e => forall R', RegExpMatcher R' = RegExpMatcher R ->
                     fst (acceptNode R' e) = false)
         (text_entries_below (Element nm cls kids) here).
Proof.
  simpl. generalize 0 as i. induction kids as [|k kids IH]; intros i Hk; [constructor|].
  apply Forall_cons in Hk. destruct Hk as [Hk Hks].
  destruct k as [v|knm kcls kkids].
  - constructor; [|now apply IH]. intros R' HR'.
    destruct (acceptNode_without_match R' (mkEntry here i nm cls v)) as [j ->]; [|reflexivity].
    simpl. simpl in Hk. unfold contains_match in *. now rewrite HR'.
  - apply Forall_app. split; [|now apply IH].
    destruct Hk as [Hcls Htext].
    pose proof (entries_of_text_children knm kcls (here ++ [i]) kkids Htext) as Hents.
    eapply Forall_impl; [exact Hents|]. intros e He R' _.
    rewrite acceptNode_spoiler_child; [reflexivity|]. now rewrite He.
Qed.

(** The nodes that replace a text node, for a text without HTML-special
    characters. *)
Lemma replacement_nodes (R : RegExp) (str : jsstring) :
  RegExpMatcher R = m -> html_plain str ->
  exists ms,
    String_replace str R wrap_spoiler
    = Done (build_result str wrap_spoiler ms 0, set_lastIndex R 0)
    /\ innerHTML (build_result str wrap_spoiler ms 0) = Done (nodes_of str ms 0)
    /\ flat_map textContent (nodes_of str ms 0) = str
    /\ Forall (inert R) (nodes_of str ms 0).
Proof.
  intros HR Hp.
  assert (Hfw : forward (RegExpMatcher R)) by (rewrite HR; apply name_matcher_forward).
  destruct (String_replace_total R str wrap_spoiler Hfw) as (ms & Hrep & Hs & Hall & Hfree).
  rewrite HR in Hall, Hfree.
  pose proof (build_tree_nodes str ms 0 [] Hs I) as Hk. simpl in Hk.
  destruct (build_tree_replacement str ms 0 []) as (kids' & Hk' & Ht).
  rewrite Hk in Hk'. injection Hk' as <-.
  exists ms. split; [exact Hrep|]. split; [|split].
  - unfold innerHTML. rewrite tokenize_replacement by exact Hp. now rewrite Hk.
  - rewrite Ht. simpl. rewrite build_result_identity by exact Hs. apply drop_0.
  - apply nodes_of_inert; auto. lia.
Qed.

End NoSecondWrapping.

(** X21: for a dictionary with at least one entry whose entries are not
    empty and hold no syntax character of regular expressions, and a text
    without HTML-special characters: the expression of the script compiles,
    the nodes that replace a text node are text nodes without a match and
    spoiler spans holding text only, their text content is the original
    text, and the filter rejects every text node among them, under any
    parent. *)
Theorem replacement_is_not_eligible_again (toUpperCase : char -> option char)
    (D : list jsstring) (str : jsstring)
  (Hsome : D <> [])
  (Hplain : Forall plain_entry D)
  (Hnonempty : Forall (fun name => name <> []) D)
  (Htext : html_plain str) :
  exists R, compile toUpperCase D = Some R
  /\ exists html kids,
    String_replace str R wrap_spoiler = Done (html, set_lastIndex R 0)
    /\ innerHTML html = Done kids
    /\ flat_map textContent kids = str
    /\ Forall (inert R) kids
    /\ forall nm cls here,
         Forall (fun e => forall R', RegExpMatcher R' = RegExpMatcher R ->
                            fst (acceptNode R' e) = false)
                (text_entries_below (Element nm cls kids) here).
Proof.
  exists {| RegExpMatcher := name_matcher toUpperCase D; lastIndex := 0 |}.
  split; [now apply compile_plain|].
  destruct (replacement_nodes toUpperCase D Hnonempty
              {| RegExpMatcher := name_matcher toUpperCase D; lastIndex := 0 |} str
              eq_refl Htext)
    as (ms & Hrep & Hhtml & Ht & Hinert).
  exists (build_result str wrap_spoiler ms 0), (nodes_of str ms 0).
  split; [exact Hrep|]. split; [exact Hhtml|]. split; [exact Ht|]. split; [exact Hinert|].
  intros nm cls here. now apply entries_of_inert_rejected.
Qed.

(** ** Name Dictionary Loader: lines, blank lines *)

Lemma trim_start_nil_iff (s : jsstring) : trim_start s = [] <-> all_space s.
Proof.
  unfold all_space. induction s as [|c s IH]; simpl; [split; [constructor|reflexivity]|].
  destruct (is_trim_space c) eqn:E.
  - rewrite IH. split; [now constructor|]. intros H. now apply Forall_cons in H.
  - split; [discriminate|]. intros H. apply Forall_cons in H. destruct H as [H _]. congruence.
Qed.

Lemma trim_nil_iff (s : jsstring) : trim s = [] <-> all_space s.
Proof.
  unfold trim. split.
  - intros H. apply (f_equal (@rev char)) in H. rewrite rev_involutive in H. simpl in H.
    apply trim_start_nil_iff in H. unfold all_space in H. apply Forall_rev in H.
    rewrite rev_involutive in H.
    apply trim_start_nil_iff.
    pose proof (trim_start_head s) as Hhead.
    destruct (trim_start s) as [|c u]; [reflexivity|exfalso].
    apply Forall_cons in H. destruct H as [H _]. simpl in Hhead. congruence.
  - intros H. apply trim_start_nil_iff in H. rewrite H. reflexivity.
Qed.

(** X2: the loader hands over an empty entry exactly when the list has a
    line that is not empty and holds white space only. *)
Theorem empty_entry_iff_blank_line (text : jsstring) :
  In [] (parse_name_list text)
  <-> exists line, In line (split_lines text) /\ line <> [] /\ all_space line.
Proof.
  unfold parse_name_list. rewrite in_map_iff. split.
  - intros (line & Htrim & Hin). exists line.
    apply list_elem_of_In, list_elem_of_filter in Hin. destruct Hin as [Hb Hin].
    split; [now apply list_elem_of_In|]. split.
    + destruct line; [discriminate|discriminate].
    + now apply trim_nil_iff.
  - intros (line & Hin & Hne & Hsp). exists line. split; [now apply trim_nil_iff|].
    apply list_elem_of_In, list_elem_of_filter. split; [|now apply list_elem_of_In].
    destruct line; [contradiction|reflexivity].
Qed.

Lemma split_lines_from_pieces (s cur : jsstring) :
  Forall (fun c => char_eqb c LF = false) cur ->
  Forall (Forall (fun c => char_eqb c LF = false)) (split_lines_from s cur).
Proof.
  remember (length s) as n eqn:Hn. revert s cur Hn.
  induction n as [n IH] using lt_wf_ind. intros s cur Hn Hcur.
  destruct s as [|c rest]; simpl.
  - repeat constructor. now apply Forall_rev.
  - simpl in Hn. destruct (char_eqb c LF) eqn:Ec.
    + constructor; [now apply Forall_rev|]. apply (IH (length rest)); [lia|reflexivity|constructor].
    + destruct (char_eqb c CR) eqn:Er.
      * destruct rest as [|d rest'].
        { constructor; [|constructor].
          change (Forall (fun c => char_eqb c LF = false) (rev (c :: cur))).
          apply Forall_rev. now constructor. }
        destruct (char_eqb d LF) eqn:Ed.
        { constructor; [now apply Forall_rev|].
          apply (IH (length rest')); [simpl in *; lia|reflexivity|constructor]. }
        apply (IH (length (d :: rest'))); [lia|reflexivity|now constructor].
      * apply (IH (length rest)); [lia|reflexivity|now constructor].
Qed.

(** X3: in the first variant every entry is a non-empty piece of the text
    without a line feed; nothing is trimmed. *)
Theorem first_variant_entries (text : jsstring) :
  Forall (fun name => name <> [] /\ Forall (fun c => char_eqb c LF = false) name
                      /\ In name (split_lines text))
         (parse_name_list_v1 text).
Proof.
  unfold parse_name_list_v1. apply Forall_forall. intros name Hin.
  apply list_elem_of_filter in Hin. destruct Hin as [Hb Hin].
  split; [destruct name; discriminate|]. split; [|now apply list_elem_of_In].
  pose proof (split_lines_from_pieces text [] ltac:(constructor)) as Hall.
  rewrite Forall_forall in Hall. now apply Hall.
Qed.

Lemma split_lines_from_nonempty (s cur : jsstring) : split_lines_from s cur <> [].
Proof.
  revert cur. induction s as [|c rest IH]; intros cur; simpl; [discriminate|].
  destruct (char_eqb c LF); [discriminate|].
  destruct (char_eqb c CR); [|apply IH].
  destruct rest as [|d rest']; [simpl; discriminate|].
  destruct (char_eqb d LF); [discriminate|apply IH].
Qed.

Lemma join_cons (sep x : jsstring) (l : list jsstring) :
  l <> [] -> join sep (x :: l) = x ++ sep ++ join sep l.
Proof. destruct l; [contradiction|reflexivity]. Qed.

Lemma split_lines_from_join (s cur : jsstring) :
  Forall (fun c => char_eqb c CR = false) s ->
  join [LF] (split_lines_from s cur) = rev cur ++ s.
Proof.
  revert cur. induction s as [|c rest IH]; intros cur Hs; simpl.
  - now rewrite app_nil_r.
  - apply Forall_cons in Hs. destruct Hs as [Hc Hs]. rewrite Hc.
    destruct (char_eqb c LF) eqn:Ec.
    + rewrite join_cons by apply split_lines_from_nonempty.
      rewrite IH by exact Hs. simpl. apply N.eqb_eq in Ec. now subst c.
    + rewrite IH by exact Hs. simpl. now rewrite <- app_assoc.
Qed.

(** X4: for a text without carriage returns, the lines joined by line feeds
    give the text back. *)
Theorem split_lines_join (text : jsstring)
  (Hcr : Forall (fun c => char_eqb c CR = false) text) :
  join [LF] (split_lines text) = text.
Proof. unfold split_lines. now rewrite split_lines_from_join. Qed.

(** ** The filter and [lastIndex] *)

Lemma set_lastIndex_same (R : RegExp) : set_lastIndex R (lastIndex R) = R.
Proof. now destruct R. Qed.

Lemma test_from_zero (R : RegExp) (str : jsstring) :
  lastIndex R = 0 ->
  fst (RegExp_test R str) = contains_match R str
  /\ RegExpMatcher (snd (RegExp_test R str)) = RegExpMatcher R.
Proof.
  intros H0. unfold RegExp_test, RegExpBuiltinExec, contains_match. rewrite H0. simpl.
  rewrite Nat.sub_0_r.
  destruct (exec_scan _ _ _ _) as [[j e]|]; simpl; auto.
Qed.

Lemma acceptNode_from_zero (R : RegExp) (e : text_entry) :
  lastIndex R = 0 -> acceptNode R e = (eligible R e, R).
Proof.
  intros H0. unfold acceptNode, eligible. cbv zeta.
  destruct (String.eqb (ascii_lower_string (parentName e)) "script"
            || String.eqb (ascii_lower_string (parentName e)) "style"
            || String.eqb (ascii_lower_string (parentName e)) "textarea"
            || String.eqb (ascii_lower_string (parentName e)) "input");
    cbn [negb andb orb]; [reflexivity|].
  destruct (existsb (String.eqb SPOILER_CLASS) (parentClasses e));
    cbn [negb andb orb]; [reflexivity|].
  destruct (has_non_space (value e)); cbn [negb andb orb]; [|reflexivity].
  unfold RegExp_test, RegExpBuiltinExec, contains_match. rewrite H0.
  cbn [Nat.ltb Nat.leb]. rewrite Nat.sub_0_r.
  destruct (exec_scan _ _ _ _) as [[j k]|];
    (f_equal; rewrite <- H0; now destruct R).
Qed.

Lemma first_accepted_from_zero (R : RegExp) (es : list text_entry) :
  lastIndex R = 0 ->
  first_accepted R es = (List.find (eligible R) es, R).
Proof.
  intros H0. induction es as [|e es IH]; simpl; [reflexivity|].
  rewrite acceptNode_from_zero by exact H0. destruct (eligible R e); [reflexivity|exact IH].
Qed.

Lemma entries_of_children_eq (nm : string) (cls : list string) (here : path)
    (kids : list node) :
  text_entries_below (Element nm cls kids) here = entries_of_children nm cls here kids 0.
Proof.
  simpl. generalize 0. induction kids as [|k kids IH]; intros i; simpl; [reflexivity|].
  destruct k; now rewrite IH.
Qed.

Lemma entry_path_nonempty (e : text_entry) : path_before [] (entry_path e) = true.
Proof. unfold entry_path. destruct (parentPath e); reflexivity. Qed.

Lemma following_text_from_root (doc : node) :
  following_text doc (Attached []) = text_entries_below doc [].
Proof.
  simpl. induction (text_entries_below doc []) as [|e es IH]; [reflexivity|].
  rewrite filter_cons. rewrite decide_True by apply entry_path_nonempty. now rewrite IH.
Qed.

(** X5: the filter, called with [lastIndex] at 0, accepts a text node
    exactly when its parent is none of script, style, textarea and input
    and does not carry the spoiler class, its text has a character that is
    no white space and holds a match; it leaves the expression as it was,
    [lastIndex] included. *)
Theorem filter_restores_lastIndex (R : RegExp) (e : text_entry)
  (Hzero : lastIndex R = 0) :
  acceptNode R e = (eligible R e, R).
Proof. now apply acceptNode_from_zero. Qed.

(** X6: a pass, with [lastIndex] at 0, replaces the first eligible text node
    of the body in document order and no other; without an eligible text
    node it gives back the very page.  The expression has [lastIndex] 0
    again after it. *)
Theorem pass_replaces_first_eligible_node (pg : Page) (R : RegExp)
  (Hregex : nameRegex pg = Some R)
  (Hzero : lastIndex R = 0)
  (Hforward : forward (RegExpMatcher R)) :
  censorNames true pg
  = match List.find (eligible R) (text_entries_below (body pg) []) with
    | None => Done pg
    | Some e =>
        let* kids := (let* (html, _) := String_replace (value e) R wrap_spoiler in
                      innerHTML html) in
        let (doc, i) := insert_all (body pg) (parentPath e) (childIndex e) kids in
        Done {| body := removeChild doc (parentPath e) i;
                nameRegex := Some R;
                mutations := mutations pg + (length kids + 1) |}
    end.
Proof.
  rewrite (censorNames_replaces_one_node pg R Hregex). unfold nextNode.
  rewrite following_text_from_root, first_accepted_from_zero by exact Hzero.
  destruct (List.find _ _) as [e|].
  - unfold censor_node.
    destruct (String_replace_total R (value e) wrap_spoiler Hforward) as (ms & -> & _).
    simpl. rewrite <- Hzero, set_lastIndex_same.
    destruct (innerHTML _) as [kids| |]; simpl; try reflexivity.
    destruct (insert_all _ _ _ _). reflexivity.
  - destruct pg. simpl in *. now subst.
Qed.

(** ** Initialisation, timers and the stored flag *)

Lemma initialize_counts (s : Script) :
  styleElements (initialize s) = (if 0 <? styleElements s then styleElements s else 1)
  /\ clickListeners (initialize s) = clickListeners s + 1
  /\ observers (initialize s) = observers s.
Proof.
  unfold initialize, injectSpoilerStyles. destruct (0 <? styleElements s) eqn:E; simpl.
  - auto.
  - apply Nat.ltb_ge in E. repeat split; lia.
Qed.

(** X7: however often the synchronous part of the initialisation runs, one
    style element is injected, and one more click listener is added at every
    run. *)
Theorem repeated_initialisation (n : nat) (doc : node) (Hn : 0 < n) :
  styleElements (Nat.iter n initialize (start doc)) = 1
  /\ clickListeners (Nat.iter n initialize (start doc)) = n.
Proof.
  destruct n as [|n]; [lia|]. clear Hn. induction n as [|n [IH1 IH2]].
  - split; reflexivity.
  - change (Nat.iter (S (S n)) initialize (start doc))
      with (initialize (Nat.iter (S n) initialize (start doc))).
    destruct (initialize_counts (Nat.iter (S n) initialize (start doc))) as (H1 & H2 & _).
    rewrite H1, H2, IH1, IH2. split; [reflexivity|lia].
Qed.

Lemma observer_callback_idle_or_armed (s : Script) :
  idle_or_armed s -> idle_or_armed (observer_callback s).
Proof.
  intros H. unfold observer_callback. destruct (negb (isEnabled s)); [exact H|].
  eapply armed_idle_or_armed. now apply debounced_arms.
Qed.

Lemma last_cons_default (l : list nat) (x c d : nat) :
  List.last (x :: l) c = List.last (x :: l) d.
Proof.
  revert x. induction l as [|y l IH]; intros x; [reflexivity|].
  change (List.last (y :: l) c = List.last (y :: l) d). apply IH.
Qed.

Lemma iter_observer_callback_idle_or_armed (n : nat) (s : Script) :
  idle_or_armed s -> idle_or_armed (Nat.iter n observer_callback s).
Proof.
  intros H. induction n as [|n IH]; simpl; [exact H|].
  now apply observer_callback_idle_or_armed.
Qed.

Lemma iter_observer_callback_disabled (n : nat) (s : Script) :
  isEnabled s = false -> Nat.iter n observer_callback s = s.
Proof.
  intros H. induction n as [|n IH]; simpl; [reflexivity|].
  rewrite IH. unfold observer_callback. now rewrite H.
Qed.

Lemma delete_keeps_idle_or_armed (id : nat) (tm : option nat) (tos : gmap nat nat) :
  (tos = ∅ \/ exists due i, tm = Some i /\ tos = {[i := due]}) ->
  (delete id tos = ∅ \/ exists due i, tm = Some i /\ delete id tos = {[i := due]}).
Proof.
  intros [-> | (due & i & Htm & ->)].
  - left. apply delete_empty.
  - destruct (decide (id = i)) as [->|Hne].
    + left. apply delete_singleton_eq.
    + right. exists due, i. split; [exact Htm|]. now apply delete_singleton_ne.
Qed.

Section TimerInvariant.

Variable RegExp_new : jsstring -> option RegExp.

Lemma fetch_settled_timers (r : fetch_result) (s : Script) :
  timer (fetch_settled RegExp_new r s) = timer s
  /\ timeouts (fetch_settled RegExp_new r s) = timeouts s.
Proof.
  unfold fetch_settled. destruct r as [|[|] text]; simpl; auto.
  destruct (length (parse_name_list text) =? 0); simpl; auto.
  destruct (RegExp_new _); simpl; auto.
Qed.

Lemma deliver_idle_or_armed (e : event) (s : Script) :
  idle_or_armed s -> idle_or_armed (deliver RegExp_new e s).
Proof.
  intros H. destruct e as [t|t id|t ch|t r]; unfold deliver.
  - apply iter_observer_callback_idle_or_armed. exact H.
  - unfold timeout_fires, idle_or_armed, armed. simpl.
    destruct (delete_keeps_idle_or_armed id (timer s) (timeouts s)) as [Hd | (due & i & Ht & Hd)].
    + destruct H as [H | (due & i & Ht & Hm)]; [now left|right; eauto].
    + now left.
    + right. eauto.
  - unfold storage_changed. destruct ch as [change|]; [|exact H].
    simpl. destruct (truthy (newValue change)); exact H.
  - destruct (fetch_settled_timers r (set_clock t s)) as [Ht Hm].
    change (event_time (FetchSettled t r)) with t.
    unfold idle_or_armed, armed. rewrite Ht, Hm. exact H.
Qed.

(** X8: whatever the host delivers, in whatever order, at most one timeout
    of the script is pending at any time, also with several observers. *)
Theorem at_most_one_timeout_pending (es : list event) (doc : node) :
  size (timeouts (run RegExp_new es (initialize (start doc)))) <= 1.
Proof.
  assert (H : idle_or_armed (run RegExp_new es (initialize (start doc)))).
  { assert (H0 : idle_or_armed (initialize (start doc))) by now left.
    revert H0. generalize (initialize (start doc)).
    induction es as [|e es IH]; intros s H0; simpl; [exact H0|].
    apply IH. now apply deliver_idle_or_armed. }
  destruct H as [-> | (due & id & _ & ->)].
  - rewrite map_size_empty. lia.
  - rewrite map_size_singleton. lia.
Qed.

(** X9: while the flag is false, batches of mutations set no timeout and
    run no pass: apart from the clock the script stays as it is. *)
Theorem disabled_script_ignores_mutations (es : list event) (s : Script)
  (Hdisabled : isEnabled s = false)
  (Hes : Forall (fun e => match e with Mutations _ => True | _ => False end) es) :
  run RegExp_new es s = set_clock (List.last (map event_time es) (clock s)) s.
Proof.
  revert s Hdisabled. induction Hes as [|e es He Hes IH]; intros s Hd.
  - simpl. now destruct s.
  - destruct e as [t| | |]; try contradiction.
    change (run RegExp_new (Mutations t :: es) s)
      with (run RegExp_new es (deliver RegExp_new (Mutations t) s)).
    assert (Hdel : deliver RegExp_new (Mutations t) s = set_clock t s).
    { unfold deliver. change (event_time (Mutations t)) with t.
      apply iter_observer_callback_disabled. exact Hd. }
    rewrite Hdel. rewrite IH by exact Hd.
    destruct es as [|e' es']; [reflexivity|].
    change (List.last (map event_time (Mutations t :: e' :: es')) (clock s))
      with (List.last (event_time e' :: map event_time es') (clock s)).
    change (map event_time (e' :: es')) with (event_time e' :: map event_time es').
    now rewrite (last_cons_default (map event_time es') (event_time e')
                   (clock (set_clock t s)) (clock s)).
Qed.

End TimerInvariant.

(** ** The popup and the stored flag *)

(** X10: a click on the toggle stores the negation of what is stored (a
    missing value counts as false), hands the new value to the content
    script and alerts it; two clicks store the truth value that was there. *)
Theorem toggle_stores_negation (b : Browser) :
  stored (click_toggle b) = Some (negb (truthy (stored b)))
  /\ isEnabled (tab (click_toggle b)) = negb (truthy (stored b))
  /\ stored (click_toggle (click_toggle b)) = Some (truthy (stored b))
  /\ (exists message,
        alerts (click_toggle b) = message :: alerts b
        /\ message = js "Name Blocker "
                       ++ (if truthy (stored b) then js "disabled" else js "enabled")).
Proof.
  unfold click_toggle, popup_toggle. simpl.
  destruct (truthy (stored b)) eqn:E; simpl; repeat split; eauto.
Qed.

(** X11: with nothing stored yet, the script runs enabled; the first click
    on the toggle then stores true and tells the script that it is enabled:
    a censor pass runs, no reload is requested, and nothing is disabled. *)
Theorem first_toggle_does_not_disable (b : Browser)
  (Hfresh : stored b = None) :
  stored (click_toggle b) = Some true
  /\ isEnabled (tab (click_toggle b)) = true
  /\ pass_times (trace (tab (click_toggle b))) = clock (tab b) :: pass_times (trace (tab b))
  /\ reload_times (trace (tab (click_toggle b))) = reload_times (trace (tab b)).
Proof.
  unfold click_toggle, popup_toggle. rewrite Hfresh. simpl. auto.
Qed.

Section Reload.

Variable RegExp_new : jsstring -> option RegExp.

(** X12: the script never reads the stored flag.  After a click that
    stores false, the script requests a reload; the script that starts on
    the reloaded page is enabled again, and once its list is loaded it runs
    a censor pass on the page, with the flag true. *)
Theorem disabling_does_not_survive_the_reload (b : Browser) (doc : node)
    (text : jsstring) (R : RegExp)
  (Hon : stored b = Some true)
  (Hlist : parse_name_list text <> [])
  (Hregex : RegExp_new (js "\b(?:" ++ join [VBAR] (parse_name_list text) ++ js ")\b")
            = Some R) :
  let off := click_toggle b in
  let reloaded := load_page doc off in
  let loaded := fetch_settled RegExp_new (Response true text) (tab reloaded) in
  stored off = Some false
  /\ reload_times (trace (tab off)) = clock (tab b) :: reload_times (trace (tab b))
  /\ stored reloaded = Some false
  /\ isEnabled loaded = true
  /\ pass_times (trace loaded) = [0]
  /\ page loaded = censorNames true {| body := doc; nameRegex := Some R; mutations := 0 |}.
Proof.
  intros off reloaded loaded.
  assert (Hoff : stored off = Some false
                 /\ reload_times (trace (tab off))
                    = clock (tab b) :: reload_times (trace (tab b))).
  { unfold off, click_toggle, popup_toggle. rewrite Hon. split; reflexivity. }
  destruct Hoff as [Hs Hr]. split; [exact Hs|]. split; [exact Hr|]. split; [exact Hs|].
  assert (Hl : loaded
               = observeDOMChanges
                   (call_censorNames
                      (set_page (Done {| body := doc; nameRegex := Some R; mutations := 0 |})
                         (initialize (start doc))))).
  { unfold loaded, reloaded, load_page. cbn [tab]. unfold fetch_settled.
    destruct (parse_name_list text) as [|n l] eqn:E; [contradiction|].
    cbn [length Nat.eqb]. rewrite Hregex. reflexivity. }
  rewrite Hl. repeat split; reflexivity.
Qed.

End Reload.

(** ** The first variant: splitting a text into words *)

Lemma split_nonword_from_concat (s cur : jsstring) (sep : bool) :
  concat (split_nonword_from s cur sep) = rev cur ++ s.
Proof.
  revert cur sep. induction s as [|c rest IH]; intros cur sep; simpl.
  - destruct sep; simpl; now rewrite ?app_nil_r.
  - destruct (Bool.eqb (negb (is_word_char c)) sep).
    + rewrite IH. simpl. now rewrite <- app_assoc.
    + simpl. rewrite IH. reflexivity.
Qed.

(** X13: the pieces of [split(/(\W+)/)], joined again, are the text. *)
Theorem split_nonword_concat (text : jsstring) :
  concat (split_nonword text) = text.
Proof. unfold split_nonword. now rewrite split_nonword_from_concat. Qed.

Lemma split_nonword_from_alternating (s : jsstring) :
  (forall cur, word_run cur -> alternating (split_nonword_from s cur false))
  /\ (forall cur, cur <> [] -> Forall (fun c => is_word_char c = false) cur ->
        match split_nonword_from s cur true with
        | sep :: rest => separator_run sep /\ alternating rest
        | [] => False
        end).
Proof.
  induction s as [|c rest [IHw IHs]]; split; intros cur.
  - intros Hw. simpl. now apply Forall_rev.
  - intros Hne Hs. simpl. split; [|constructor]. split.
    + intros H. apply (f_equal (@rev char)) in H. rewrite rev_involutive in H. now apply Hne.
    + now apply Forall_rev.
  - intros Hw. simpl. destruct (is_word_char c) eqn:Ec; simpl.
    + apply IHw. now constructor.
    + specialize (IHs [c] ltac:(discriminate) ltac:(now constructor)).
      destruct (split_nonword_from rest [c] true) as [|sep pieces]; [contradiction|].
      destruct IHs as [Hsep Halt]. split; [now apply Forall_rev|]. split; assumption.
  - intros Hne Hs. simpl. destruct (is_word_char c) eqn:Ec; simpl.
    + split.
      * split.
        -- intros H. apply (f_equal (@rev char)) in H. rewrite rev_involutive in H.
           now apply Hne.
        -- now apply Forall_rev.
      * apply IHw. now repeat constructor.
    + apply IHs; [discriminate|now constructor].
Qed.

(** X14: the pieces alternate between runs of word characters and
    non-empty runs of other characters, and begin and end with a run of
    word characters. *)
Theorem split_nonword_alternates (text : jsstring) :
  alternating (split_nonword text).
Proof. apply split_nonword_from_alternating. constructor. Qed.

Lemma alternating_pieces (pieces : list jsstring) :
  alternating pieces ->
  Forall (fun p => word_run p \/ Forall (fun c => is_word_char c = false) p) pieces.
Proof.
  remember (length pieces) as n eqn:Hn. revert pieces Hn.
  induction n as [n IH] using lt_wf_ind. intros pieces Hn Halt.
  destruct pieces as [|w [|sep rest]]; simpl in Halt.
  - contradiction.
  - constructor; [now left|constructor].
  - destruct Halt as (Hw & [_ Hsep] & Hrest).
    constructor; [now left|]. constructor; [now right|].
    apply (IH (length rest)); [simpl in Hn; lia|reflexivity|exact Hrest].
Qed.

Lemma jsstring_eqb_eq (a b : jsstring) : jsstring_eqb a b = true <-> a = b.
Proof.
  revert b. induction a as [|x a IH]; intros [|y b]; simpl; split; try easy.
  - intros H. apply andb_true_iff in H. destruct H as [Hx Hab].
    apply N.eqb_eq in Hx. apply IH in Hab. congruence.
  - intros [= -> ->]. apply andb_true_iff. split; [apply N.eqb_refl|now apply IH].
Qed.

Lemma pieces_are_not_mixed (text : jsstring) :
  Forall (fun piece => mixed piece = false) (split_nonword text).
Proof.
  pose proof (alternating_pieces (split_nonword text)
                (proj1 (split_nonword_from_alternating text) [] ltac:(constructor)))
    as Hall.
  eapply Forall_impl; [exact Hall|]. intros piece [Hw | Hs]; unfold mixed.
  - replace (existsb (fun c => negb (is_word_char c)) piece) with false;
      [apply andb_false_r|].
    symmetry. apply not_true_is_false. intros H. apply existsb_exists in H.
    destruct H as (c & Hc & Hcw). unfold word_run in Hw. rewrite Forall_forall in Hw.
    apply list_elem_of_In in Hc. rewrite (Hw c Hc) in Hcw. discriminate.
  - replace (existsb is_word_char piece) with false; [reflexivity|].
    symmetry. apply not_true_is_false. intros H. apply existsb_exists in H.
    destruct H as (c & Hc & Hcw). rewrite Forall_forall in Hs.
    apply list_elem_of_In in Hc. rewrite (Hs c Hc) in Hcw. discriminate.
Qed.

Lemma includes_without_mixed (nameList : list jsstring) (word : jsstring) :
  mixed word = false ->
  includes (List.filter (fun name => negb (mixed name)) nameList) word
  = includes nameList word.
Proof.
  intros Hw. unfold includes. induction nameList as [|name rest IH]; [reflexivity|].
  simpl. destruct (mixed name) eqn:Hm; simpl.
  - rewrite IH. destruct (jsstring_eqb word name) eqn:E; [|reflexivity].
    apply jsstring_eqb_eq in E. congruence.
  - now rewrite IH.
Qed.

(** X15: whatever the list, the first variant never wraps an entry that
    holds both a word character and another character, such as a double
    name or a name with a space left at its end: no piece of a text is
    such a string, so no piece is equal to the entry, and the variant does
    to every text what it does with these entries taken off the list. *)
Theorem first_variant_misses_mixed_entries (nameList : list jsstring) (text : jsstring) :
  Forall (fun piece => mixed piece = false) (split_nonword text)
  /\ (forall name, In name nameList -> mixed name = true ->
        Forall (fun piece => includes [name] piece = false) (split_nonword text))
  /\ censor_text_v1 nameList text
     = censor_text_v1 (List.filter (fun name => negb (mixed name)) nameList) text.
Proof.
  pose proof (pieces_are_not_mixed text) as Hp.
  split; [exact Hp|]. split.
  - intros name _ Hm. eapply Forall_impl; [exact Hp|]. intros piece Hpiece.
    unfold includes. simpl. rewrite orb_false_r.
    apply not_true_is_false. intros E. apply jsstring_eqb_eq in E. congruence.
  - unfold censor_text_v1.
    set (kept := List.filter (fun name => negb (mixed name)) nameList).
    assert (Hex : existsb (includes kept) (split_nonword text)
                  = existsb (includes nameList) (split_nonword text)).
    { induction Hp as [|piece pieces Hpiece Hp IH]; [reflexivity|].
      cbn [existsb]. rewrite IH. unfold kept.
      now rewrite (includes_without_mixed nameList piece Hpiece). }
    assert (Hmap : map (fun word => if includes kept word then wrap_black word else word)
                     (split_nonword text)
                   = map (fun word => if includes nameList word then wrap_black word else word)
                       (split_nonword text)).
    { clear Hex. induction Hp as [|piece pieces Hpiece Hp IH]; [reflexivity|].
      cbn [map]. rewrite IH. unfold kept.
      now rewrite (includes_without_mixed nameList piece Hpiece). }
    now rewrite Hex, Hmap.
Qed.

(** ** The document: paths, updates, text content *)

Lemma node_ind_nested (P : node -> Prop) :
  (forall v, P (Text v)) ->
  (forall nm cls kids, Forall P kids -> P (Element nm cls kids)) ->
  forall n, P n.
Proof.
  intros HT HE. fix IH 1. intros [v|nm cls kids]; [apply HT|].
  apply HE. induction kids as [|k kids IHk]; constructor; [apply IH|exact IHk].
Qed.

Lemma entries_of_children_In (nm : string) (cls : list string) (here : path)
    (ks : list node) (i0 : nat) (e : text_entry) :
  In e (entries_of_children nm cls here ks i0) ->
  (exists j v, ks !! j = Some (Text v) /\ e = mkEntry here (i0 + j) nm cls v)
  \/ (exists j k, ks !! j = Some k /\ In e (text_entries_below k (here ++ [i0 + j]))).
Proof.
  revert i0. induction ks as [|k ks IH]; intros i0; simpl; [contradiction|].
  assert (Hrest : In e (entries_of_children nm cls here ks (S i0)) ->
    (exists j v, (k :: ks) !! j = Some (Text v) /\ e = mkEntry here (i0 + j) nm cls v)
    \/ (exists j k', (k :: ks) !! j = Some k'
                     /\ In e (text_entries_below k' (here ++ [i0 + j])))).
  { intros H. destruct (IH (S i0) H) as [(j & v & Hj & He) | (j & k' & Hj & He)].
    - left. exists (S j), v. split; [exact Hj|]. rewrite He. f_equal. lia.
    - right. exists (S j), k'. split; [exact Hj|].
      now replace (i0 + S j) with (S i0 + j) by lia. }
  destruct k as [v|knm kcls kkids].
  - intros [<- | H]; [|now apply Hrest].
    left. exists 0, v. split; [reflexivity|]. now rewrite Nat.add_0_r.
  - intros H. apply in_app_iff in H. destruct H as [H | H]; [|now apply Hrest].
    right. exists 0, (Element knm kcls kkids). split; [reflexivity|].
    now rewrite Nat.add_0_r.
Qed.

(** A text node that the walker meets is a child of an element of the
    document, at the place the entry tells. *)
Lemma entries_lookup (n : node) :
  forall (here : path) (e : text_entry),
  In e (text_entries_below n here) ->
  exists rel kids,
    parentPath e = here ++ rel
    /\ get_node n rel = Some (Element (parentName e) (parentClasses e) kids)
    /\ kids !! childIndex e = Some (Text (value e)).
Proof.
  induction n as [v|nm cls kids IH] using node_ind_nested; intros here e Hin.
  - contradiction.
  - rewrite entries_of_children_eq in Hin. apply entries_of_children_In in Hin.
    destruct Hin as [(j & v & Hj & ->) | (j & k & Hj & Hin)].
    + exists [], kids. simpl. rewrite app_nil_r. auto.
    + rewrite Forall_forall in IH.
      destruct (IH k (list_elem_of_lookup_2 _ _ _ Hj) _ _ Hin) as (rel & kids' & Hp & Hg & Hk).
      exists (j :: rel), kids'. simpl. rewrite Hj. rewrite Hp, <- app_assoc. auto.
Qed.

Lemma update_children_compose (n : node) (p : path) (f g : list node -> list node) :
  update_children (update_children n p f) p g = update_children n p (fun l => g (f l)).
Proof.
  revert n. induction p as [|i p IH]; intros [v|nm cls kids]; simpl; try reflexivity.
  f_equal. rewrite list_alter_alter_eq. apply list_alter_ext; [|reflexivity].
  intros k _. apply IH.
Qed.

Lemma update_children_id (n : node) (p : path) :
  update_children n p (fun l => l) = n.
Proof.
  revert n. induction p as [|i p IH]; intros [v|nm cls kids]; simpl; try reflexivity.
  f_equal. apply list_alter_id. intros k. apply IH.
Qed.

Lemma insert_all_update (doc : node) (p : path) (ks : list node) (i : nat) :
  insert_all doc p i ks = (update_children doc p (insert_children i ks), i + length ks).
Proof.
  revert doc i. induction ks as [|k ks IH]; intros doc i; simpl.
  - rewrite Nat.add_0_r. f_equal. symmetry. apply update_children_id.
  - rewrite IH. unfold insertBefore. rewrite update_children_compose.
    f_equal. lia.
Qed.

Lemma insert_children_spec (ks l : list node) (i : nat) :
  i <= length l -> insert_children i ks l = take i l ++ ks ++ drop i l.
Proof.
  revert i l. induction ks as [|k ks IH]; intros i l Hi; simpl.
  - symmetry. apply take_drop.
  - rewrite IH.
    + assert (Hlen : length (take i l) = i) by (rewrite length_take; lia).
      replace (take (S i) (take i l ++ k :: drop i l)) with (take i l ++ [k]).
      2:{ replace (S i) with (length (take i l) + 1) by lia.
          now rewrite take_app_add. }
      replace (drop (S i) (take i l ++ k :: drop i l)) with (drop i l).
      2:{ replace (S i) with (length (take i l) + 1) by lia.
          now rewrite drop_app_add. }
      now rewrite <- app_assoc.
    + rewrite length_app, length_take. simpl. rewrite length_drop. lia.
Qed.

Lemma flat_map_alter_same (f : node -> node) (i : nat) (l : list node) :
  (forall k, l !! i = Some k -> textContent (f k) = textContent k) ->
  flat_map textContent (alter f i l) = flat_map textContent l.
Proof.
  revert i. induction l as [|x l IH]; intros [|i] H; simpl; try reflexivity.
  - f_equal. now apply H.
  - f_equal. apply IH. exact H.
Qed.

Lemma textContent_update_children (p : path) :
  forall (n : node) (nm : string) (cls : list string) (kids : list node)
         (f : list node -> list node),
  get_node n p = Some (Element nm cls kids) ->
  flat_map textContent (f kids) = flat_map textContent kids ->
  textContent (update_children n p f) = textContent n.
Proof.
  induction p as [|i p IH]; intros n nm cls kids f Hg Hf.
  - simpl in Hg. injection Hg as ->. simpl. exact Hf.
  - destruct n as [v|nm' cls' kids']; [discriminate|]. simpl in Hg |- *.
    apply flat_map_alter_same. intros k Hk. rewrite Hk in Hg.
    now apply (IH k nm cls kids).
Qed.

Lemma first_accepted_matcher (R R' : RegExp) (es : list text_entry) (r : option text_entry) :
  first_accepted R es = (r, R') -> RegExpMatcher R' = RegExpMatcher R.
Proof.
  revert R. induction es as [|x es IH]; intros R; simpl.
  - now intros [= _ <-].
  - unfold acceptNode. destruct (_ || _).
    + intros H. exact (IH _ H).
    + unfold RegExp_test, RegExpBuiltinExec.
      destruct (length (value x) <? lastIndex R).
      * intros H. exact (IH _ H).
      * destruct (exec_scan _ _ _ _) as [[j k]|].
        -- now intros [= _ <-].
        -- intros H. exact (IH _ H).
Qed.

(** X16: when the text nodes of the body hold no HTML-special character, a
    pass ends, and the text content of the body after it is the text
    content before it: the pass adds spans and changes no text. *)
Theorem pass_preserves_text_content (pg : Page) (R : RegExp)
  (Hregex : nameRegex pg = Some R)
  (Hforward : forward (RegExpMatcher R))
  (Hplain : forall e, In e (text_entries_below (body pg) []) -> html_plain (value e)) :
  exists pg', censorNames true pg = Done pg'
              /\ textContent (body pg') = textContent (body pg).
Proof.
  rewrite (censorNames_replaces_one_node pg R Hregex).
  destruct (nextNode (body pg) (Attached []) R) as [[e|] R'] eqn:En.
  2:{ eexists. split; reflexivity. }
  unfold nextNode in En. pose proof (first_accepted_matcher _ _ _ _ En) as HR'.
  apply first_accepted_Some in En. rewrite following_text_from_root in En.
  destruct (entries_lookup (body pg) [] e En) as (rel & kids & Hp & Hg & Hk).
  simpl in Hp. subst rel.
  assert (Hfw' : forward (RegExpMatcher R')) by now rewrite HR'.
  destruct (plain_text_is_preserved R' (value e) Hfw' (Hplain e En))
    as (html & new & Hrep & Hhtml & Htext).
  unfold censor_node. rewrite Hrep. simpl. rewrite Hhtml. simpl.
  rewrite insert_all_update. eexists. split; [reflexivity|]. simpl.
  unfold removeChild. rewrite update_children_compose.
  apply (textContent_update_children (parentPath e) (body pg)
           (parentName e) (parentClasses e) kids); [exact Hg|].
  apply lookup_lt_Some in Hk as Hlt.
  rewrite insert_children_spec by lia.
  rewrite delete_take_drop.
  assert (Hlen : length (take (childIndex e) kids) = childIndex e)
    by (rewrite length_take; lia).
  rewrite app_assoc.
  replace (childIndex e + length new) with (length (take (childIndex e) kids ++ new))
    by (rewrite length_app; lia).
  rewrite take_app_length.
  replace (S (length (take (childIndex e) kids ++ new)))
    with (length (take (childIndex e) kids ++ new) + 1) by lia.
  rewrite drop_app_add.
  rewrite drop_drop. replace (childIndex e + 1) with (S (childIndex e)) by lia.
  transitivity (flat_map textContent
                  (take (childIndex e) kids ++ Text (value e) :: drop (S (childIndex e)) kids)).
  - rewrite !flat_map_app. simpl. rewrite Htext. now rewrite <- app_assoc.
  - now rewrite take_drop_middle.
Qed.

(** ** Revealing a spoiler *)

Lemma spoiler_class_after_reveal (cls : list string) :
  existsb (String.eqb SPOILER_CLASS) (cls ++ [REVEALED])
  = existsb (String.eqb SPOILER_CLASS) cls.
Proof.
  rewrite existsb_app.
  change (existsb (String.eqb SPOILER_CLASS) [REVEALED]) with false.
  apply orb_false_r.
Qed.

Lemma has_spoiler_add_revealed (n : node) :
  has_class SPOILER_CLASS (add_revealed n) = has_class SPOILER_CLASS n.
Proof. destruct n as [v|nm cls kids]; [reflexivity|]. apply spoiler_class_after_reveal. Qed.

Lemma has_spoiler_update (p : path) (n : node) :
  has_class SPOILER_CLASS (update_node n p add_revealed) = has_class SPOILER_CLASS n.
Proof.
  destruct p as [|i p]; [exact (has_spoiler_add_revealed n)|].
  destruct n; reflexivity.
Qed.

Lemma revealed_after_reveal (nm : string) (cls : list string) (kids : list node) :
  has_class REVEALED (add_revealed (Element nm cls kids)) = true.
Proof.
  unfold has_class, add_revealed. rewrite existsb_app.
  change (existsb (String.eqb REVEALED) [REVEALED]) with true. apply orb_true_r.
Qed.

Lemma same_spoiler_refl (a : option node) : same_spoiler a a.
Proof. destruct a; simpl; auto. Qed.

Lemma get_node_after_reveal (q : path) :
  forall (doc : node) (p : path),
  same_spoiler (get_node (update_node doc p add_revealed) q) (get_node doc q).
Proof.
  induction q as [|j q IH]; intros doc p.
  - simpl. apply has_spoiler_update.
  - destruct doc as [v|nm cls kids].
    + destruct p; simpl; exact I.
    + destruct p as [|i p].
      * simpl. apply same_spoiler_refl.
      * simpl. destruct (decide (i = j)) as [->|Hne].
        -- rewrite list_lookup_alter_eq. destruct (kids !! j) as [k|]; simpl; [apply IH|exact I].
        -- rewrite list_lookup_alter_ne by exact Hne. apply same_spoiler_refl.
Qed.

Lemma closest_spoiler_after_reveal (doc : node) (p : path) (rp : list nat) :
  closest_spoiler (update_node doc p add_revealed) rp = closest_spoiler doc rp.
Proof.
  induction rp as [|x rp IH].
  - pose proof (get_node_after_reveal (rev []) doc p) as H. simpl in H |- *.
    unfold same_spoiler in H. simpl. now rewrite H.
  - pose proof (get_node_after_reveal (rev (x :: rp)) doc p) as H.
    cbn [closest_spoiler]. unfold same_spoiler in H.
    destruct (get_node (update_node doc p add_revealed) (rev (x :: rp))) as [n'|];
      destruct (get_node doc (rev (x :: rp))) as [n|]; try contradiction.
    + rewrite H. now rewrite IH.
    + exact IH.
Qed.

Lemma closest_spoiler_found (doc : node) (rp : list nat) (p : path) :
  closest_spoiler doc rp = Some p ->
  exists n, get_node doc p = Some n /\ has_class SPOILER_CLASS n = true.
Proof.
  induction rp as [|x rp IH]; cbn [closest_spoiler].
  - destruct (get_node doc (rev [])) as [n|] eqn:E; [|discriminate].
    destruct (has_class SPOILER_CLASS n) eqn:Hc; [|discriminate].
    intros [= <-]. eauto.
  - destruct (get_node doc (rev (x :: rp))) as [n|] eqn:E; [|exact IH].
    destruct (has_class SPOILER_CLASS n) eqn:Hc; [|exact IH].
    intros [= <-]. eauto.
Qed.

Lemma get_node_update_same (p : path) (f : node -> node) :
  forall doc, get_node (update_node doc p f) p = f <$> get_node doc p.
Proof.
  induction p as [|i p IH]; intros doc; [reflexivity|].
  destruct doc as [v|nm cls kids]; [reflexivity|]. simpl.
  rewrite list_lookup_alter_eq. destruct (kids !! i) as [k|]; simpl; [apply IH|reflexivity].
Qed.

(** X17: a second click on the same target changes nothing and does not
    stop the propagation: a spoiler is revealed once. *)
Theorem reveal_click_once (doc : node) (target : path) :
  reveal_click (fst (reveal_click doc target)) target = (fst (reveal_click doc target), false).
Proof.
  unfold reveal_click at 2 3.
  destruct (closest_spoiler doc (rev target)) as [p|] eqn:Ec.
  2:{ simpl. unfold reveal_click. now rewrite Ec. }
  destruct (closest_spoiler_found doc _ p Ec) as (n & Hn & Hs). rewrite Hn.
  destruct (has_class REVEALED n) eqn:Hr; simpl.
  - unfold reveal_click. now rewrite Ec, Hn, Hr.
  - unfold reveal_click. rewrite closest_spoiler_after_reveal, Ec.
    rewrite get_node_update_same, Hn. cbn [fmap option_fmap option_map].
    destruct n as [v|nm cls kids]; [discriminate|].
    now rewrite revealed_after_reveal.
Qed.

Lemma textContent_update_node (f : node -> node) (p : path) :
  (forall k, textContent (f k) = textContent k) ->
  forall n, textContent (update_node n p f) = textContent n.
Proof.
  intros Hf. induction p as [|i p IH]; intros n; [apply Hf|].
  destruct n as [v|nm cls kids]; [reflexivity|]. simpl.
  apply flat_map_alter_same. intros k _. apply IH.
Qed.

Lemma entries_of_children_cons (nm : string) (cls : list string) (here : path)
    (k : node) (ks : list node) (i : nat) :
  entries_of_children nm cls here (k :: ks) i
  = child_entries nm cls here k i ++ entries_of_children nm cls here ks (S i).
Proof. destruct k; reflexivity. Qed.

Lemma same_for_filter_refl (es : list text_entry) : Forall2 same_for_filter es es.
Proof. induction es; constructor; auto. unfold same_for_filter. auto. Qed.

Lemma update_node_text (v : jsstring) (p : path) :
  update_node (Text v) p add_revealed = Text v.
Proof. destruct p; reflexivity. Qed.

Lemma entries_of_children_revealed (nm : string) (cls : list string) (here : path)
    (ks : list node) (i : nat) :
  Forall2 same_for_filter
    (entries_of_children nm (cls ++ [REVEALED]) here ks i)
    (entries_of_children nm cls here ks i).
Proof.
  revert i. induction ks as [|k ks IH]; intros i; [constructor|].
  rewrite !entries_of_children_cons. apply Forall2_app; [|apply IH].
  destruct k as [v|knm kcls kkids]; simpl.
  - constructor; [|constructor]. unfold same_for_filter. simpl.
    repeat split; auto. apply spoiler_class_after_reveal.
  - apply same_for_filter_refl.
Qed.

Lemma entries_after_reveal (p : path) :
  forall (n : node) (here : path),
  Forall2 same_for_filter
    (text_entries_below (update_node n p add_revealed) here)
    (text_entries_below n here).
Proof.
  induction p as [|i p IH]; intros n here.
  - destruct n as [v|nm cls kids]; [constructor|].
    change (update_node (Element nm cls kids) [] add_revealed)
      with (Element nm (cls ++ [REVEALED]) kids).
    rewrite !entries_of_children_eq. apply entries_of_children_revealed.
  - destruct n as [v|nm cls kids]; [constructor|].
    change (update_node (Element nm cls kids) (i :: p) add_revealed)
      with (Element nm cls (alter (fun k => update_node k p add_revealed) i kids)).
    rewrite !entries_of_children_eq. generalize 0 as i0. revert i.
    induction kids as [|k kids IHk]; intros i i0; [constructor|].
    destruct i as [|i]; simpl alter; rewrite !entries_of_children_cons.
    + apply Forall2_app; [|apply same_for_filter_refl].
      destruct k as [v|knm kcls kkids].
      * rewrite update_node_text. apply same_for_filter_refl.
      * assert (Hel : exists a b c, update_node (Element knm kcls kkids) p add_revealed
                                   = Element a b c).
        { destruct p; simpl; eauto. }
        destruct Hel as (a & b & c & Hel).
        unfold child_entries at 1. rewrite Hel, <- Hel. apply IH.
    + apply Forall2_app; [apply same_for_filter_refl|apply IHk].
Qed.

Lemma acceptNode_same_for_filter (R : RegExp) (e' e : text_entry) :
  same_for_filter e' e -> acceptNode R e' = acceptNode R e.
Proof.
  intros (_ & _ & Hn & Hv & Hc). unfold acceptNode. now rewrite Hn, Hv, Hc.
Qed.

(** X18: a click changes no text of the document, and the filter of the
    censor gives the same verdict on every text node after it as before:
    the revealed spoiler keeps the spoiler class, so a later pass does not
    wrap the revealed name again. *)
Theorem reveal_click_keeps_text_and_filter (doc : node) (target : path) (R : RegExp) :
  textContent (fst (reveal_click doc target)) = textContent doc
  /\ map (acceptNode R) (text_entries_below (fst (reveal_click doc target)) [])
     = map (acceptNode R) (text_entries_below doc []).
Proof.
  unfold reveal_click.
  destruct (closest_spoiler doc (rev target)) as [p|]; [|split; reflexivity].
  destruct (get_node doc p) as [n|]; [|split; reflexivity].
  destruct (negb (has_class REVEALED n)); [|split; reflexivity].
  simpl. split.
  - apply textContent_update_node. intros [v|nm cls kids]; reflexivity.
  - pose proof (entries_after_reveal p doc []) as H.
    induction H as [|e' e es' es He _ IH]; [reflexivity|].
    simpl. now rewrite (acceptNode_same_for_filter R e' e He), IH.
Qed.

(** ** Passes one after the other *)

Lemma shapes_of_children_any (nm : string) (cls : list string) (ks : list node) :
  Forall (fun k => forall here here',
            map shape_of (text_entries_below k here)
            = map shape_of (text_entries_below k here')) ks ->
  forall here i,
  map shape_of (entries_of_children nm cls here ks i) = children_shapes nm cls ks.
Proof.
  intros Hks. induction Hks as [|k ks Hk _ IH]; intros here i; [reflexivity|].
  rewrite entries_of_children_cons, map_app, IH. unfold children_shapes. simpl. f_equal.
  destruct k as [v|knm kcls kkids]; [reflexivity|]. apply Hk.
Qed.

(** The shapes of the text nodes do not depend on where the node sits. *)
Lemma shapes_anywhere (n : node) :
  forall here here',
  map shape_of (text_entries_below n here) = map shape_of (text_entries_below n here').
Proof.
  induction n as [v|nm cls kids IH] using node_ind_nested; intros here here'; [reflexivity|].
  rewrite !entries_of_children_eq. now rewrite !(shapes_of_children_any nm cls kids IH).
Qed.

Lemma shapes_of_children (nm : string) (cls : list string) (here : path)
    (ks : list node) (i : nat) :
  map shape_of (entries_of_children nm cls here ks i) = children_shapes nm cls ks.
Proof.
  apply shapes_of_children_any. apply Forall_forall. intros k _. apply shapes_anywhere.
Qed.

Lemma node_shapes_element (nm : string) (cls : list string) (kids : list node) :
  node_shapes (Element nm cls kids) = children_shapes nm cls kids.
Proof. unfold node_shapes. rewrite entries_of_children_eq. apply shapes_of_children. Qed.

Lemma children_shapes_app (nm : string) (cls : list string) (a b : list node) :
  children_shapes nm cls (a ++ b) = children_shapes nm cls a ++ children_shapes nm cls b.
Proof. apply flat_map_app. Qed.

Lemma child_shapes_element (nm : string) (cls : list string) (k : node) :
  (exists a b c, k = Element a b c) ->
  children_shapes nm cls [k] = node_shapes k.
Proof.
  intros (a & b & c & ->). unfold children_shapes, node_shapes. cbn [flat_map].
  rewrite app_nil_r. unfold child_entries. apply shapes_anywhere.
Qed.

Lemma alter_split (f : node -> node) (i : nat) (l : list node) (k : node) :
  l !! i = Some k -> alter f i l = take i l ++ f k :: drop (S i) l.
Proof.
  revert i. induction l as [|x l IH]; intros [|i] H; try discriminate.
  - injection H as ->. reflexivity.
  - simpl. f_equal. now apply IH.
Qed.

(** The shapes of a document whose element at [p] gets the children
    [f kids]: the shapes around that element stay. *)
Lemma shapes_update_children (p : path) :
  forall (n : node) (nm : string) (cls : list string) (kids : list node),
  get_node n p = Some (Element nm cls kids) ->
  exists pre post, forall f,
    node_shapes (update_children n p f) = pre ++ children_shapes nm cls (f kids) ++ post.
Proof.
  induction p as [|i p IH]; intros n nm cls kids Hg.
  - simpl in Hg. injection Hg as ->. exists [], []. intros f. simpl update_children.
    rewrite node_shapes_element. now rewrite app_nil_r.
  - destruct n as [v|nm' cls' kids']; [discriminate|]. simpl in Hg.
    destruct (kids' !! i) as [k|] eqn:Hk; [|discriminate].
    destruct (IH k nm cls kids Hg) as (pre & post & Hf).
    assert (Hel : forall f, exists a b c, update_children k p f = Element a b c).
    { intros f. destruct p as [|j p'].
      - simpl in Hg. injection Hg as ->. simpl. eauto.
      - destruct k as [v|a b c]; [discriminate|]. simpl. eauto. }
    exists (children_shapes nm' cls' (take i kids') ++ pre),
           (post ++ children_shapes nm' cls' (drop (S i) kids')).
    intros f. simpl update_children. rewrite node_shapes_element.
    rewrite (alter_split _ i kids' k Hk).
    rewrite children_shapes_app.
    change (update_children k p f :: drop (S i) kids')
      with ([update_children k p f] ++ drop (S i) kids').
    rewrite children_shapes_app, (child_shapes_element nm' cls' _ (Hel f)), Hf.
    now rewrite <- !app_assoc.
Qed.

Lemma eligible_shape_of (R : RegExp) (e : text_entry) :
  eligible_shape R (shape_of e) = eligible R e.
Proof. reflexivity. Qed.

Lemma eligible_count_entries (R : RegExp) (doc : node) :
  eligible_count R doc = length (List.filter (eligible R) (text_entries_below doc [])).
Proof.
  unfold eligible_count, node_shapes.
  induction (text_entries_below doc []) as [|e es IH]; [reflexivity|].
  simpl. rewrite eligible_shape_of. destruct (eligible R e); simpl; now rewrite IH.
Qed.

Lemma find_none_count (R : RegExp) (doc : node) :
  List.find (eligible R) (text_entries_below doc []) = None <-> eligible_count R doc = 0.
Proof.
  rewrite eligible_count_entries.
  induction (text_entries_below doc []) as [|e es IH]; simpl; [tauto|].
  destruct (eligible R e); simpl; [split; discriminate|exact IH].
Qed.

Lemma spliced_children (kids new : list node) (i : nat) (x : node) :
  kids !! i = Some x ->
  delete (i + length new) (insert_children i new kids)
  = take i kids ++ new ++ drop (S i) kids.
Proof.
  intros Hk. apply lookup_lt_Some in Hk as Hlt.
  rewrite insert_children_spec by lia. rewrite delete_take_drop.
  assert (Hlen : length (take i kids) = i) by (rewrite length_take; lia).
  rewrite app_assoc.
  replace (i + length new) with (length (take i kids ++ new)) by (rewrite length_app; lia).
  rewrite take_app_length.
  replace (S (length (take i kids ++ new))) with (length (take i kids ++ new) + 1) by lia.
  rewrite drop_app_add, drop_drop. replace (i + 1) with (S i) by lia.
  now rewrite <- app_assoc.
Qed.

Lemma text_node_plain (v : jsstring) :
  html_plain v ->
  Forall plain_node (text_node v)
  /\ Forall (fun k => match k with Text w => html_plain w | Element _ _ _ => False end)
            (text_node v).
Proof.
  intros H. destruct v as [|c v]; simpl; [split; constructor|].
  split; (constructor; [exact H|constructor]).
Qed.

Lemma nodes_of_plain (str : jsstring) (ms : list (nat * nat)) (next : nat) :
  html_plain str -> Forall plain_node (nodes_of str ms next).
Proof.
  intros Hp. revert next. induction ms as [|[i e] ms IH]; intros next; simpl.
  - apply text_node_plain. now apply Forall_drop.
  - apply Forall_app. split.
    + apply text_node_plain. now apply html_plain_substring.
    + constructor; [|apply IH]. simpl.
      apply text_node_plain. now apply html_plain_substring.
Qed.

Lemma text_children_shapes (nm : string) (cls : list string) (kids : list node)
    (P : shape -> Prop) :
  Forall (fun k => match k with Text v => P (nm, cls, v) | Element _ _ _ => False end) kids ->
  Forall P (children_shapes nm cls kids).
Proof.
  intros H. induction H as [|k kids Hk _ IH]; [constructor|].
  destruct k as [v|? ? ?]; [|contradiction].
  change (children_shapes nm cls (Text v :: kids))
    with ((nm, cls, v) :: children_shapes nm cls kids).
  now constructor.
Qed.

(** The shapes that the nodes of a replacement contribute: none is
    eligible, all are plain. *)
Lemma replacement_shapes (R : RegExp) (nm : string) (cls : list string) (new : list node) :
  Forall (inert R) new -> Forall plain_node new ->
  Forall (fun s => eligible_shape R s = false /\ html_plain (snd s))
         (children_shapes nm cls new).
Proof.
  intros Hi. induction Hi as [|k new Hk _ IH]; intros Hp; [constructor|].
  apply Forall_cons in Hp. destruct Hp as [Hpk Hp].
  change (k :: new) with ([k] ++ new). rewrite children_shapes_app.
  apply Forall_app. split; [|now apply IH].
  destruct k as [v|knm kcls kkids].
  - unfold children_shapes. simpl. constructor; [|constructor]. split; [|exact Hpk].
    unfold eligible_shape, eligible. simpl in Hk |- *. rewrite Hk. apply andb_false_r.
  - rewrite child_shapes_element by eauto. rewrite node_shapes_element.
    destruct Hk as [Hcls Htext]. simpl in Hpk.
    apply text_children_shapes. clear Htext.
    induction Hpk as [|c kk Hc _ IHc]; constructor; [|exact IHc].
    destruct c as [v|? ? ?]; [|contradiction]. split; [|exact Hc].
    unfold eligible_shape, eligible. cbn [fst snd parentClasses].
    assert (Hex : existsb (String.eqb SPOILER_CLASS) kcls = true).
    { apply existsb_exists. exists SPOILER_CLASS. split; [exact Hcls|apply String.eqb_refl]. }
    rewrite Hex. cbn [negb]. rewrite andb_false_r. reflexivity.
Qed.

Lemma count_app (R : RegExp) (a b : list shape) :
  length (List.filter (eligible_shape R) (a ++ b))
  = length (List.filter (eligible_shape R) a) + length (List.filter (eligible_shape R) b).
Proof. rewrite List.filter_app. apply length_app. Qed.

Lemma count_none (R : RegExp) (l : list shape) :
  Forall (fun s => eligible_shape R s = false) l ->
  length (List.filter (eligible_shape R) l) = 0.
Proof. intros H. induction H as [|s l Hs _ IH]; [reflexivity|]. simpl. now rewrite Hs. Qed.

Section RepeatedPasses.

Variable toUpperCase : char -> option char.
Variable alts : list jsstring.
Hypothesis alts_nonempty : Forall (fun a => a <> []) alts.

(** One pass on a ready page with an eligible text node: one text node
    fewer is eligible afterwards, the text is the same, the page is ready. *)
Lemma pass_on_ready_page (R : RegExp) (pg : Page) :
  ready toUpperCase alts R pg -> 0 < eligible_count R (body pg) ->
  exists pg', censorNames true pg = Done pg'
              /\ ready toUpperCase alts R pg'
              /\ eligible_count R (body pg') + 1 = eligible_count R (body pg)
              /\ textContent (body pg') = textContent (body pg).
Proof.
  intros (Hregex & Hm & Hzero & Hplain) Hcount.
  rewrite (censorNames_replaces_one_node pg R Hregex). unfold nextNode.
  rewrite following_text_from_root, first_accepted_from_zero by exact Hzero.
  destruct (List.find (eligible R) (text_entries_below (body pg) [])) as [e|] eqn:Ef.
  2:{ apply find_none_count in Ef. lia. }
  apply List.find_some in Ef. destruct Ef as [Hin Hel].
  destruct (entries_lookup (body pg) [] e Hin) as (rel & kids & Hp & Hg & Hk).
  simpl in Hp. subst rel.
  assert (Hpe : html_plain (value e)).
  { rewrite Forall_forall in Hplain.
    apply (Hplain (shape_of e)). apply list_elem_of_In. unfold node_shapes.
    apply in_map. exact Hin. }
  destruct (replacement_nodes toUpperCase alts alts_nonempty R (value e) Hm Hpe)
    as (ms & Hrep & Hhtml & Htext & Hinert).
  pose proof (nodes_of_plain (value e) ms 0 Hpe) as Hnp.
  set (new := nodes_of (value e) ms 0) in *.
  unfold censor_node. rewrite Hrep. simpl. rewrite Hhtml. simpl.
  rewrite insert_all_update. rewrite <- Hzero, set_lastIndex_same. rewrite Hzero.
  eexists. split; [reflexivity|]. cbn [body nameRegex mutations].
  unfold removeChild. rewrite update_children_compose.
  destruct (shapes_update_children (parentPath e) (body pg) _ _ kids Hg) as (pre & post & Hf).
  pose proof (Hf (fun l => l)) as Hold. rewrite update_children_id in Hold.
  pose proof (Hf (fun l => delete (childIndex e + length new)
                             (insert_children (childIndex e) new l))) as Hnew.
  cbv beta in Hold, Hnew. rewrite (spliced_children kids new _ _ Hk) in Hnew.
  rewrite <- (take_drop_middle kids (childIndex e) (Text (value e)) Hk) in Hold at 1.
  rewrite !children_shapes_app in Hnew.
  change (Text (value e) :: drop (S (childIndex e)) kids)
    with ([Text (value e)] ++ drop (S (childIndex e)) kids) in Hold.
  rewrite !children_shapes_app in Hold.
  change (children_shapes (parentName e) (parentClasses e) [Text (value e)])
    with [shape_of e] in Hold.
  pose proof (replacement_shapes R (parentName e) (parentClasses e) new Hinert Hnp) as Hrs.
  split; [|split].
  - split; [reflexivity|]. split; [exact Hm|]. split; [exact Hzero|].
    cbn [body]. rewrite Hnew. rewrite Hold in Hplain.
    rewrite !Forall_app in Hplain |- *. destruct Hplain as (H1 & (H2 & _ & H3) & H4).
    repeat split; auto. eapply Forall_impl; [exact Hrs|]. now intros s [_ H].
  - unfold eligible_count. rewrite Hnew, Hold. rewrite !count_app.
    rewrite (count_none R (children_shapes _ _ new)).
    2:{ eapply Forall_impl; [exact Hrs|]. now intros s [H _]. }
    simpl. rewrite eligible_shape_of, Hel. simpl. lia.
  - apply (textContent_update_children (parentPath e) (body pg)
             (parentName e) (parentClasses e) kids); [exact Hg|].
    rewrite (spliced_children kids new _ _ Hk).
    transitivity (flat_map textContent
                    (take (childIndex e) kids ++ Text (value e)
                       :: drop (S (childIndex e)) kids)).
    + rewrite !flat_map_app. simpl. now rewrite Htext.
    + now rewrite take_drop_middle.
Qed.

Lemma passes_on_ready_page (k : nat) :
  forall (R : RegExp) (pg : Page),
  ready toUpperCase alts R pg -> k <= eligible_count R (body pg) ->
  exists pg', passes k pg = Done pg'
              /\ ready toUpperCase alts R pg'
              /\ eligible_count R (body pg') + k = eligible_count R (body pg)
              /\ textContent (body pg') = textContent (body pg).
Proof.
  induction k as [|k IH]; intros R pg Hr Hk.
  - exists pg. split; [reflexivity|]. split; [exact Hr|]. split; [lia|reflexivity].
  - destruct (pass_on_ready_page R pg Hr ltac:(lia)) as (pg1 & Hp & Hr1 & Hc1 & Ht1).
    destruct (IH R pg1 Hr1 ltac:(lia)) as (pg' & Hps & Hr' & Hc' & Ht').
    exists pg'. simpl. rewrite Hp. simpl. split; [exact Hps|]. split; [exact Hr'|].
    split; [lia|congruence].
Qed.

(** On a ready page every pass wraps one eligible text node, and as many
    passes as there were eligible text nodes leave none. *)
Lemma passes_reach_fixpoint (R : RegExp) (pg : Page)
  (Hready : ready toUpperCase alts R pg) :
  (forall k, k <= eligible_count R (body pg) ->
     exists pgk, passes k pg = Done pgk
                 /\ eligible_count R (body pgk) + k = eligible_count R (body pg))
  /\ exists pg', passes (eligible_count R (body pg)) pg = Done pg'
                 /\ eligible_count R (body pg') = 0
                 /\ censorNames true pg' = Done pg'
                 /\ textContent (body pg') = textContent (body pg).
Proof.
  split.
  - intros k Hk. destruct (passes_on_ready_page k R pg Hready Hk) as (pgk & Hp & _ & Hc & _).
    now exists pgk.
  - destruct (passes_on_ready_page _ R pg Hready (Nat.le_refl _))
      as (pg' & Hp & (Hregex & Hm & Hzero & Hplain) & Hc & Ht).
    exists pg'. split; [exact Hp|]. split; [lia|]. split; [|exact Ht].
    rewrite (censorNames_replaces_one_node pg' R Hregex). unfold nextNode.
    rewrite following_text_from_root, first_accepted_from_zero by exact Hzero.
    assert (Hnone : List.find (eligible R) (text_entries_below (body pg') []) = None)
      by (apply find_none_count; lia).
    rewrite Hnone. destruct pg'. simpl in *. now subst.
Qed.

End RepeatedPasses.

(** X22: for a dictionary with at least one entry whose entries are not
    empty and hold no syntax character of regular expressions, and a page
    that holds the expression compiled from it and has no HTML-special
    character in its text nodes: every pass wraps one eligible text node, so
    [k] passes leave [k] fewer eligible text nodes; after as many passes as
    there were eligible text nodes none is left, one more pass returns the
    page as it is, and the text content of the body is what it was at the
    start. *)
Theorem repeated_passes_censor_everything (toUpperCase : char -> option char)
    (D : list jsstring) (pg : Page)
  (Hsome : D <> [])
  (Hplain : Forall plain_entry D)
  (Hnonempty : Forall (fun name => name <> []) D)
  (Hregex : nameRegex pg = compile toUpperCase D)
  (Htext : Forall (fun s => html_plain (snd s)) (node_shapes (body pg))) :
  exists R, nameRegex pg = Some R
  /\ (forall k, k <= eligible_count R (body pg) ->
        exists pgk, passes k pg = Done pgk
                    /\ eligible_count R (body pgk) + k = eligible_count R (body pg))
  /\ exists pg', passes (eligible_count R (body pg)) pg = Done pg'
                 /\ eligible_count R (body pg') = 0
                 /\ censorNames true pg' = Done pg'
                 /\ textContent (body pg') = textContent (body pg).
Proof.
  rewrite (compile_plain toUpperCase D Hsome Hplain) in Hregex.
  exists {| RegExpMatcher := name_matcher toUpperCase D; lastIndex := 0 |}.
  split; [exact Hregex|].
  apply (passes_reach_fixpoint toUpperCase D Hnonempty).
  split; [exact Hregex|]. split; [reflexivity|]. split; [reflexivity|exact Htext].
Qed.

(** ** Case folding and what the spans hold *)

Section CaseFolding.

Variable toUpperCase : char -> option char.

(** X23: whatever the uppercase table of the host, a code unit below 128 of
    an entry is matched by itself and, when it is a letter, by its other
    case, and by no other code unit: no code unit of 128 or more folds onto
    an ASCII letter. *)
Theorem ascii_matches_only_its_cases (p c : char)
  (Hascii : (p < 128)%N) :
  char_matches toUpperCase p c = true
  <-> c = p \/ (is_ascii_letter p = true /\ c = swap_case p).
Proof.
  unfold char_matches, char_eqb, is_ascii_letter, swap_case, Canonicalize, in_range.
  rewrite N.eqb_eq.
  destruct (N.ltb_spec p 128) as [_|]; [|lia].
  destruct (N.ltb_spec c 128) as [Hc|Hc].
  - destruct (N.leb_spec 97 p) as [?|?]; destruct (N.leb_spec p 122) as [?|?];
      destruct (N.leb_spec 65 p) as [?|?]; destruct (N.leb_spec p 90) as [?|?];
      destruct (N.leb_spec 97 c) as [?|?]; destruct (N.leb_spec c 122) as [?|?];
      cbn [andb orb]; (split; [intros Heq | intros [Heq | [Hl Heq]]]);
      try discriminate; lia.
  - assert (Hcan : exists k : char,
              match toUpperCase c with
              | Some cu => if N.ltb cu 128 then c else cu
              | None => c
              end = k /\ (128 <= k)%N).
    { destruct (toUpperCase c) as [cu|]; [|now exists c].
      destruct (N.ltb_spec cu 128); [now exists c|now exists cu]. }
    destruct Hcan as (k & -> & Hk).
    destruct (N.leb_spec 97 p) as [?|?]; destruct (N.leb_spec p 122) as [?|?];
      destruct (N.leb_spec 65 p) as [?|?]; destruct (N.leb_spec p 90) as [?|?];
      cbn [andb orb]; (split; [intros Heq | intros [Heq | [Hl Heq]]]);
      try discriminate; lia.
Qed.

Lemma nodes_of_spans (str : jsstring) (ms : list (nat * nat)) :
  forall next nm cls ks,
  In (Element nm cls ks) (nodes_of str ms next) ->
  nm = "SPAN"%string /\ cls = [SPOILER_CLASS]
  /\ exists i e, In (i, e) ms /\ ks = text_node (substring str i e).
Proof.
  induction ms as [|[i e] ms IH]; intros next nm cls ks Hin; simpl in Hin.
  - destruct (drop next str); simpl in Hin; [contradiction|].
    destruct Hin as [H | []]. discriminate.
  - apply in_app_iff in Hin. destruct Hin as [Hin | [Hin | Hin]].
    + destruct (substring str next i); simpl in Hin; [contradiction|].
      destruct Hin as [H | []]. discriminate.
    + injection Hin as <- <- <-. split; [reflexivity|]. split; [reflexivity|].
      exists i, e. split; [now left|reflexivity].
    + destruct (IH _ _ _ _ Hin) as (H1 & H2 & i' & e' & Hm & Hk).
      split; [exact H1|]. split; [exact H2|]. exists i', e'. split; [now right|exact Hk].
Qed.

Lemma textContent_text_node (v : jsstring) : flat_map textContent (text_node v) = v.
Proof. destruct v; simpl; [reflexivity|]. now rewrite app_nil_r. Qed.

(** X24: for a dictionary with at least one entry whose entries hold no
    syntax character of regular expressions, and a text without
    HTML-special characters: every element among the nodes that replace a
    text node is a spoiler span, and the text of each span is a piece of
    the original text where an entry of the dictionary stands, up to case,
    between two word boundaries. *)
Theorem spans_hold_entries (D : list jsstring) (str : jsstring)
  (Hsome : D <> [])
  (Hplain : Forall plain_entry D)
  (Htext : html_plain str) :
  exists R, compile toUpperCase D = Some R
  /\ exists html kids,
    String_replace str R wrap_spoiler = Done (html, set_lastIndex R 0)
    /\ innerHTML html = Done kids
    /\ forall nm cls ks, In (Element nm cls ks) kids ->
         nm = "SPAN"%string /\ cls = [SPOILER_CLASS]
         /\ exists name i,
              In name D
              /\ flat_map textContent ks = substring str i (i + length name)
              /\ match_literal toUpperCase name str i = true
              /\ word_boundary str i = true
              /\ word_boundary str (i + length name) = true.
Proof.
  set (R := {| RegExpMatcher := name_matcher toUpperCase D; lastIndex := 0 |}).
  exists R. split; [now apply compile_plain|].
  assert (Hfw : forward (RegExpMatcher R)) by apply name_matcher_forward.
  destruct (String_replace_total R str wrap_spoiler Hfw) as (ms & Hrep & Hs & Hall & _).
  pose proof (build_tree_nodes str ms 0 [] Hs I) as Hk. simpl in Hk.
  exists (build_result str wrap_spoiler ms 0), (nodes_of str ms 0).
  split; [exact Hrep|]. split.
  - unfold innerHTML. rewrite tokenize_replacement by exact Htext. now rewrite Hk.
  - intros nm cls ks Hin.
    destruct (nodes_of_spans str ms 0 nm cls ks Hin) as (Hnm & Hcls & i & e & Hm & ->).
    split; [exact Hnm|]. split; [exact Hcls|].
    rewrite Forall_forall in Hall. apply list_elem_of_In in Hm.
    specialize (Hall _ Hm). simpl in Hall.
    unfold name_matcher in Hall.
    destruct (word_boundary str i) eqn:Hb; [|discriminate].
    apply match_alternatives_Some in Hall.
    destruct Hall as (name & Hname & -> & Hocc & Hend).
    exists name, i. rewrite textContent_text_node. auto.
Qed.

End CaseFolding.

(** ** Instances *)

Lemma replace_with_identity_roundtrip_witness :
  let R := {| RegExpMatcher := name_matcher toUpperCase_latin1 [js "Alice"; js "Bob"];
              lastIndex := 0 |} in
  forward (RegExpMatcher R)
  /\ String_replace (js "Hi Alice, meet bob!") R (fun m => m)
     = Done (js "Hi Alice, meet bob!", set_lastIndex R 0).
Proof.
  split.
  - apply name_matcher_forward.
  - apply (replace_with_identity_roundtrip
             {| RegExpMatcher := name_matcher toUpperCase_latin1 [js "Alice"; js "Bob"];
                lastIndex := 0 |}).
    apply name_matcher_forward.
Defined.

Lemma no_match_leaves_document_untouched_witness :
  let R := {| RegExpMatcher := name_matcher toUpperCase_latin1 [js "Alice"]; lastIndex := 0 |} in
  let pg := {| body := Element "BODY" []
                         [Element "P" [] [Text (js "Anderson was here")]; Text (js "Malice")];
               nameRegex := Some R; mutations := 0 |} in
  exists pg', censorNames true pg = Done pg'
              /\ body pg' = body pg /\ mutations pg' = mutations pg.
Proof.
  apply (no_match_leaves_document_untouched true).
  intros R e [= <-] Hin. simpl in Hin.
  destruct Hin as [<- | [<- | []]]; vm_compute; reflexivity.
Defined.

Lemma censor_is_noop_when_unset_or_disabled_witness :
  let s := initialize (start (Element "BODY" [] [Text (js "Alice")])) in
  let es := [Mutations 10; Mutations 20; TimeoutFires 320 2] in
  page (call_censorNames s) = page s /\ page (run RegExp_new_latin1 es s) = page s.
Proof.
  apply (censor_is_noop_when_unset_or_disabled RegExp_new_latin1).
  - right. eexists. split; reflexivity.
  - repeat constructor.
Defined.


(** The run of the instance above leaves no timeout pending, and its one
    pass runs at 500. *)
Example five_batches_one_pass :
  let s := fetch_settled RegExp_new_latin1 (Response true (js "Alice" ++ [LF] ++ js "Bob"))
             (initialize (start (Element "BODY" [] [Text (js "Hello")]))) in
  let es := [Mutations 0; Mutations 50; Mutations 100; Mutations 150; Mutations 200;
             TimeoutFires 500 5] in
  timeouts (run RegExp_new_latin1 es s) = ∅
  /\ pass_times (trace (run RegExp_new_latin1 es s)) = [500; 0].
Proof. split; vm_compute; reflexivity. Qed.

Lemma split_lines_join_witness :
  join [LF] (split_lines (js "Alice" ++ [LF] ++ js "Bob" ++ [LF]))
  = js "Alice" ++ [LF] ++ js "Bob" ++ [LF].
Proof. apply split_lines_join. repeat constructor. Defined.

Lemma filter_restores_lastIndex_witness :
  let R := {| RegExpMatcher := name_matcher toUpperCase_latin1 [js "Alice"]; lastIndex := 0 |} in
  let e := mkEntry [] 0 "P" [] (js "Hi Alice") in
  acceptNode R e = (eligible R e, R).
Proof. apply filter_restores_lastIndex. reflexivity. Defined.

Lemma pass_replaces_first_eligible_node_witness :
  let R := {| RegExpMatcher := name_matcher toUpperCase_latin1 [js "Alice"; js "Bob"];
              lastIndex := 0 |} in
  let pg := {| body := Element "BODY" []
                         [Element "P" [] [Text (js "Alice")]; Element "P" [] [Text (js "Bob")]];
               nameRegex := Some R; mutations := 0 |} in
  censorNames true pg
  = match List.find (eligible R) (text_entries_below (body pg) []) with
    | None => Done pg
    | Some e =>
        let* kids := (let* (html, _) := String_replace (value e) R wrap_spoiler in
                      innerHTML html) in
        let (doc, i) := insert_all (body pg) (parentPath e) (childIndex e) kids in
        Done {| body := removeChild doc (parentPath e) i;
                nameRegex := Some R;
                mutations := mutations pg + (length kids + 1) |}
    end.
Proof.
  apply pass_replaces_first_eligible_node.
  - reflexivity.
  - reflexivity.
  - apply name_matcher_forward.
Defined.

Lemma repeated_initialisation_witness :
  styleElements (Nat.iter 3 initialize (start (Element "BODY" [] []))) = 1
  /\ clickListeners (Nat.iter 3 initialize (start (Element "BODY" [] []))) = 3.
Proof. apply repeated_initialisation. lia. Defined.

(** The script has loaded its list and observes the body; the flag has just
    been set to false by the storage listener. *)
Lemma disabled_script_ignores_mutations_witness :
  let loaded := fetch_settled RegExp_new_latin1 (Response true (js "Alice" ++ [LF] ++ js "Bob"))
                  (initialize (start (Element "BODY" [] [Text (js "Alice")]))) in
  let s := deliver RegExp_new_latin1
             (StorageChanged 5 (Some {| oldValue := Some true; newValue := Some false |}))
             loaded in
  let es := [Mutations 10; Mutations 400] in
  observers s = 1
  /\ run RegExp_new_latin1 es s = set_clock (List.last (map event_time es) (clock s)) s.
Proof.
  split; [reflexivity|].
  apply disabled_script_ignores_mutations.
  - reflexivity.
  - repeat constructor.
Defined.

Lemma first_toggle_does_not_disable_witness :
  let b := {| stored := None; tab := initialize (start (Element "BODY" [] [])); alerts := [] |} in
  stored (click_toggle b) = Some true
  /\ isEnabled (tab (click_toggle b)) = true
  /\ pass_times (trace (tab (click_toggle b))) = clock (tab b) :: pass_times (trace (tab b))
  /\ reload_times (trace (tab (click_toggle b))) = reload_times (trace (tab b)).
Proof. apply first_toggle_does_not_disable. reflexivity. Defined.

Lemma disabling_does_not_survive_the_reload_witness :
  let doc := Element "BODY" [] [Element "P" [] [Text (js "Alice")]] in
  let text := js "Alice" ++ [LF] ++ js "Bob" in
  let R := {| RegExpMatcher := name_matcher toUpperCase_latin1 [js "Alice"; js "Bob"];
              lastIndex := 0 |} in
  let b := {| stored := Some true; tab := initialize (start doc); alerts := [] |} in
  let off := click_toggle b in
  let reloaded := load_page doc off in
  let loaded := fetch_settled RegExp_new_latin1 (Response true text) (tab reloaded) in
  stored off = Some false
  /\ reload_times (trace (tab off)) = clock (tab b) :: reload_times (trace (tab b))
  /\ stored reloaded = Some false
  /\ isEnabled loaded = true
  /\ pass_times (trace loaded) = [0]
  /\ page loaded = censorNames true {| body := doc; nameRegex := Some R; mutations := 0 |}.
Proof.
  apply (disabling_does_not_survive_the_reload RegExp_new_latin1).
  - reflexivity.
  - vm_compute. discriminate.
  - vm_compute. reflexivity.
Defined.


Lemma pass_preserves_text_content_witness :
  let R := {| RegExpMatcher := name_matcher toUpperCase_latin1 [js "Alice"]; lastIndex := 0 |} in
  let pg := {| body := Element "BODY" []
                         [Element "P" [] [Text (js "Hi Alice, hello")]; Text (js "bye")];
               nameRegex := Some R; mutations := 0 |} in
  exists pg', censorNames true pg = Done pg'
              /\ textContent (body pg') = textContent (body pg).
Proof.
  apply (pass_preserves_text_content _ {| RegExpMatcher := name_matcher toUpperCase_latin1 [js "Alice"];
                                          lastIndex := 0 |}).
  - reflexivity.
  - apply name_matcher_forward.
  - intros e Hin. simpl in Hin.
    destruct Hin as [<- | [<- | []]]; simpl; repeat constructor.
Defined.

Lemma failed_load_leaves_matcher_witness :
  let s := initialize (start (Element "BODY" [] [Text (js "Alice")])) in
  let r := Response true [LF; LF] in
  page (fetch_settled RegExp_new_latin1 r s) = page s
  /\ observers (fetch_settled RegExp_new_latin1 r s) = observers s
  /\ pass_times (trace (fetch_settled RegExp_new_latin1 r s)) = pass_times (trace s).
Proof.
  apply (failed_load_leaves_matcher RegExp_new_latin1
           (Response true [LF; LF])).
  right. repeat constructor.
Defined.

Lemma matcher_matches_whole_words_witness :
  let D := [js "Anders"; js "Alice"] in
  let Input := js "Anderson met alice" in
  exists R, compile toUpperCase_latin1 D = Some R
    /\ lastIndex R = 0
    /\ (forall i e, RegExpMatcher R Input i = Some e ->
          exists name, In name D /\ e = i + length name
                       /\ whole_word_at toUpperCase_latin1 name Input i = true)
    /\ (forall i name, In name D -> whole_word_at toUpperCase_latin1 name Input i = true ->
          is_Some (RegExpMatcher R Input i))
    /\ (fst (RegExp_test R Input) = true <-> spec_matches toUpperCase_latin1 D Input)
    /\ (contains_match R Input = true <-> spec_matches toUpperCase_latin1 D Input).
Proof.
  apply matcher_matches_whole_words.
  - discriminate.
  - repeat constructor.
  - repeat constructor.
Defined.



Lemma ascii_matches_only_its_cases_witness :
  char_matches toUpperCase_latin1 97 65 = true
  <-> 65%N = 97%N \/ (is_ascii_letter 97 = true /\ 65%N = swap_case 97).
Proof. apply ascii_matches_only_its_cases. lia. Defined.



Lemma replacement_is_not_eligible_again_witness :
  let D := [js "Alice"; js "Bob"] in
  let str := js "Hi Alice, meet bob and Bobby!" in
  exists R, compile toUpperCase_latin1 D = Some R
  /\ exists html kids,
    String_replace str R wrap_spoiler = Done (html, set_lastIndex R 0)
    /\ innerHTML html = Done kids
    /\ flat_map textContent kids = str
    /\ Forall (inert R) kids
    /\ forall nm cls here,
         Forall (fun e => forall R', RegExpMatcher R' = RegExpMatcher R ->
                            fst (acceptNode R' e) = false)
                (text_entries_below (Element nm cls kids) here).
Proof.
  apply (replacement_is_not_eligible_again toUpperCase_latin1 [js "Alice"; js "Bob"]).
  - discriminate.
  - repeat constructor.
  - repeat constructor; discriminate.
  - repeat constructor.
Defined.

Lemma repeated_passes_censor_everything_witness :
  let D := [js "Alice"; js "Bob"] in
  let pg := {| body := Element "BODY" []
                         [Element "P" [] [Text (js "Alice")]; Element "P" [] [Text (js "Bob")]];
               nameRegex := compile toUpperCase_latin1 D; mutations := 0 |} in
  exists R, nameRegex pg = Some R
  /\ (forall k, k <= eligible_count R (body pg) ->
        exists pgk, passes k pg = Done pgk
                    /\ eligible_count R (body pgk) + k = eligible_count R (body pg))
  /\ exists pg', passes (eligible_count R (body pg)) pg = Done pg'
                 /\ eligible_count R (body pg') = 0
                 /\ censorNames true pg' = Done pg'
                 /\ textContent (body pg') = textContent (body pg).
Proof.
  apply (repeated_passes_censor_everything toUpperCase_latin1 [js "Alice"; js "Bob"]).
  - discriminate.
  - repeat constructor.
  - repeat constructor; discriminate.
  - reflexivity.
  - simpl. repeat constructor.
Defined.

Lemma spans_hold_entries_witness :
  let D := [js "Alice"; js "Bob"] in
  let str := js "Hi Alice, meet bob!" in
  exists R, compile toUpperCase_latin1 D = Some R
  /\ exists html kids,
    String_replace str R wrap_spoiler = Done (html, set_lastIndex R 0)
    /\ innerHTML html = Done kids
    /\ forall nm cls ks, In (Element nm cls ks) kids ->
         nm = "SPAN"%string /\ cls = [SPOILER_CLASS]
         /\ exists name i,
              In name D
              /\ flat_map textContent ks = substring str i (i + length name)
              /\ match_literal toUpperCase_latin1 name str i = true
              /\ word_boundary str i = true
              /\ word_boundary str (i + length name) = true.
Proof.
  apply (spans_hold_entries toUpperCase_latin1 [js "Alice"; js "Bob"]).
  - discriminate.
  - repeat constructor.
  - repeat constructor.
Defined.
